(** * make_release_notes.py: the changelog translator and its renderer

    A shallow embedding of [scripts/make_release_notes.py].  The script is
    Python 2 code (the output of [subprocess.check_output] is matched against
    a [str] pattern), so every string is a byte string, modelled as a list of
    [ascii], and the classes [\s], [\w], [\d] are the ASCII ones of the [re]
    module without flags.

    The [re] module is not part of the script: the fragment the script's
    patterns use (anchors, literals, classes, greedy and lazy repetition of a
    class, optional groups, alternation, capture groups and lookahead) is
    given a backtracking semantics as the ordered list of ways a pattern can
    match, the first of which is the one [re.match] reports.  Where a pattern
    is quoted, a space separates a star from a closing parenthesis. *)

From Stdlib Require Import Ascii String Bool Arith Lia List.
Import ListNotations.

Local Open Scope char_scope.
Local Open Scope list_scope.

(** ** Byte strings *)

Definition str := list ascii.

Definition chars (s : string) : str := list_ascii_of_string s.

Definition nl : ascii := "010".
Definition dquote : ascii := "034".

Fixpoint str_eqb (a b : str) : bool :=
  match a, b with
  | [], [] => true
  | x :: a', y :: b' => Ascii.eqb x y && str_eqb a' b'
  | _, _ => false
  end.

(** [strip_prefix p s] is [Some rest] when [s = p ++ rest]. *)
Fixpoint strip_prefix (p s : str) : option str :=
  match p, s with
  | [], _ => Some s
  | a :: p', b :: s' => if Ascii.eqb a b then strip_prefix p' s' else None
  | _ :: _, [] => None
  end.

Definition starts_with (p s : str) : bool :=
  match strip_prefix p s with Some _ => true | None => false end.

Definition one_of (l : str) (c : ascii) : bool := existsb (Ascii.eqb c) l.

Definition between (lo hi c : ascii) : bool :=
  Nat.leb (nat_of_ascii lo) (nat_of_ascii c)
  && Nat.leb (nat_of_ascii c) (nat_of_ascii hi).

(** The character classes of [re] on byte strings. *)
Definition is_nl (c : ascii) : bool := Ascii.eqb c nl.
Definition dot (c : ascii) : bool := negb (is_nl c).                 (* .  *)
Definition any_char (c : ascii) : bool := true.                      (* [\s\S] *)
Definition is_space (c : ascii) : bool :=                            (* \s *)
  one_of [" "; "009"; "010"; "011"; "012"; "013"] c.
Definition is_digit (c : ascii) : bool := between "0" "9" c.         (* \d *)
Definition is_word (c : ascii) : bool :=                             (* \w *)
  between "a" "z" c || between "A" "Z" c || is_digit c || Ascii.eqb c "_".

(** ** The fragment of [re] the script uses *)

Inductive regex : Type :=
| Bos                                   (* ^ , no MULTILINE *)
| Eos                                   (* $ , no MULTILINE *)
| Lit (l : str)                         (* literal characters *)
| Cls (p : ascii -> bool)               (* one character of a class *)
| Rep (greedy : bool) (lo : nat) (p : ascii -> bool)
                                        (* p* p+ (greedy) and p+? (lazy) *)
| Opt (r : regex)                       (* r? *)
| Seq (r1 r2 : regex)
| Alt (r1 r2 : regex)                   (* r1|r2 *)
| Grp (n : nat) (r : regex)             (* capture group number n *)
| Ahead (sign : bool) (r : regex).      (* (?=r) and (?!r) *)

(** A matcher state: characters consumed so far, what is left of the subject
    and the capture groups closed so far. *)
Record mstate : Type := MState {
  pos : nat;
  rest : str;
  caps : list (nat * str)
}.

Definition advance (k : nat) (st : mstate) : mstate :=
  MState (pos st + k) (skipn k (rest st)) (caps st).

Definition set_group (n : nat) (s : str) (st : mstate) : mstate :=
  MState (pos st) (rest st) ((n, s) :: caps st).

(** Length of the longest prefix of [s] inside the class [p]. *)
Fixpoint span (p : ascii -> bool) (s : str) : nat :=
  match s with
  | c :: s' => if p c then S (span p s') else 0
  | [] => 0
  end.

(** The repetition counts a quantifier tries, in the order it tries them. *)
Definition rep_counts (greedy : bool) (lo hi : nat) : list nat :=
  let up := seq lo (S hi - lo) in
  if greedy then rev up else up.

Definition is_nil {A : Type} (l : list A) : bool :=
  match l with [] => true | _ :: _ => false end.

(** All the ways [r] matches at [st], in backtracking order. *)
Fixpoint run (r : regex) (st : mstate) : list mstate :=
  match r with
  | Bos => if Nat.eqb (pos st) 0 then [st] else []
  | Eos =>
      match rest st with
      | [] => [st]
      | [c] => if is_nl c then [st] else []
      | _ => []
      end
  | Lit l => if starts_with l (rest st) then [advance (length l) st] else []
  | Cls p =>
      match rest st with
      | c :: _ => if p c then [advance 1 st] else []
      | [] => []
      end
  | Rep greedy lo p =>
      map (fun k => advance k st) (rep_counts greedy lo (span p (rest st)))
  | Opt r1 => run r1 st ++ [st]
  | Seq r1 r2 => flat_map (run r2) (run r1 st)
  | Alt r1 r2 => run r1 st ++ run r2 st
  | Grp n r1 =>
      map (fun st' => set_group n (firstn (pos st' - pos st) (rest st)) st')
          (run r1 st)
  | Ahead sign r1 => if Bool.eqb sign (is_nil (run r1 st)) then [] else [st]
  end.

(** A match object: [group(0)] and the numbered groups. *)
Record rmatch : Type := RMatch {
  group0 : str;
  subgroups : list (nat * str)
}.

Fixpoint assoc_nat (n : nat) (l : list (nat * str)) : str :=
  match l with
  | [] => []
  | (k, v) :: l' => if Nat.eqb k n then v else assoc_nat n l'
  end.

Definition group (m : rmatch) (n : nat) : str :=
  match n with
  | 0 => group0 m
  | _ => assoc_nat n (subgroups m)
  end.

(** [re.match(r, s)] and [compiled.match(s)]. *)
Definition re_match (r : regex) (s : str) : option rmatch :=
  match run r (MState 0 s []) with
  | st :: _ => Some (RMatch (firstn (pos st) s) (caps st))
  | [] => None
  end.

Definition matches (r : regex) (s : str) : bool :=
  match re_match r s with Some _ => true | None => false end.

(** ** Module-level definitions of the script *)

Definition NO_HEADING : str := chars "PRODUCT HAS NO HEADING".

Inductive exn : Type :=
| LookupError (msg : str).

(** [^(?:git@github\.com:|https://github\.com/)(.* )\.git$] *)
Definition local_repo_pattern : regex :=
  Seq Bos
 (Seq (Alt (Lit (chars "git@github.com:")) (Lit (chars "https://github.com/")))
 (Seq (Grp 1 (Rep true 0 dot))
 (Seq (Lit (chars ".git"))
      Eos))).

(** [find_local_repo], as a function of what [git config --get
    remote.origin.url] printed. *)
Definition find_local_repo (url : str) : str + exn :=
  match re_match local_repo_pattern url with
  | Some m => inl (group m 1)
  | None =>
      inr (LookupError (chars "Can't figure local repo from remote URL " ++ url))
  end.

Definition CHANGE_TYPE_MAPPING : list (str * str) :=
  [ (chars "added", chars "feature") ].

(** [d.get(key, default)] *)
Fixpoint dict_get (d : list (str * str)) (key default : str) : str :=
  match d with
  | [] => default
  | (k, v) :: d' => if str_eqb k key then v else dict_get d' key default
  end.

(** ** class Renderer *)

Module Renderer.

(** [product] is [None] for Python's [None]. *)
Record t : Type := Make {
  local_repo : str;
  product : option str
}.

(** Truth value of [self.product]: [None] and the empty string are false. *)
Definition product_truthy (self : t) : bool :=
  match product self with
  | Some (_ :: _) => true
  | _ => false
  end.

Definition product_str (self : t) : str :=
  match product self with Some p => p | None => [] end.

Definition heading (self : t) (heading : str) : str :=
  if product_truthy self then
    if str_eqb (product_str self) NO_HEADING then []
    else chars "### " ++ product_str self ++ [nl]
  else heading.

Definition bullet (self : t) (spacing : str) : str :=
  spacing ++ chars "* ".

Definition change_type (self : t) (tag : str) : str :=
  let tag := dict_get CHANGE_TYPE_MAPPING tag tag in
  chars "{{" ++ tag ++ chars "}}".

(** [^(?:https:)?(//github.com/(.* )/issues/(\d+))$]; the dot of
    [github.com] is not escaped in the source. *)
Definition issue_url_pattern : regex :=
  Seq Bos
 (Seq (Opt (Lit (chars "https:")))
 (Seq (Grp 1
        (Seq (Lit (chars "//github"))
        (Seq (Cls dot)
        (Seq (Lit (chars "com/"))
        (Seq (Grp 2 (Rep true 0 dot))
        (Seq (Lit (chars "/issues/"))
             (Grp 3 (Rep true 1 is_digit))))))))
      Eos)).

Definition url (self : t) (url : str) : str :=
  match re_match issue_url_pattern url with
  | Some m =>
      let link := group m 1 in
      let repo := group m 2 in
      let issue := group m 3 in
      let text :=
        if str_eqb repo (local_repo self) then chars "#" ++ issue
        else repo ++ chars "#" ++ issue in
      chars "[" ++ text ++ chars "](" ++ link ++ chars ")"
  | None => url
  end.

Definition local_issue_link (self : t) (issue : str) : str :=
  let link := chars "//github.com/" ++ local_repo self
              ++ chars "/issues/" ++ issue in
  chars "([#" ++ issue ++ chars "](" ++ link ++ chars "))".

Definition text (self : t) (text : str) : str := text.

End Renderer.

(** ** class Translator *)

Module Translator.

(** [^#.*] *)
Definition heading : regex :=
  Seq Bos (Seq (Lit (chars "#")) (Rep true 0 dot)).

(** [^(\s* )[*+-] ] *)
Definition bullet : regex :=
  Seq Bos
 (Seq (Grp 1 (Rep true 0 is_space))
 (Seq (Cls (one_of ["*"; "+"; "-"]))
      (Lit (chars " ")))).

(** [\[(\w+)\](?!\()] *)
Definition change_type : regex :=
  Seq (Lit (chars "["))
 (Seq (Grp 1 (Rep true 1 is_word))
 (Seq (Lit (chars "]"))
      (Ahead false (Lit (chars "("))))).

(** The last character of a URL: none of [<.,:;')]], the double quote
    and [\s]. *)
Definition url_last (c : ascii) : bool :=
  negb (one_of ["<"; "."; ","; ":"; ";"; dquote; "'"; ")"; "]"] c
        || is_space c).

(** [[^\s<]] *)
Definition url_body (c : ascii) : bool :=
  negb (is_space c || Ascii.eqb c "<").

(** [^(https?://[^\s<]+L)], with [L] the class of [url_last]. *)
Definition url : regex :=
  Seq Bos
      (Grp 1
        (Seq (Lit (chars "http"))
        (Seq (Opt (Lit (chars "s")))
        (Seq (Lit (chars "://"))
        (Seq (Rep true 1 url_body)
             (Cls url_last)))))).

(** [\(#(\d+)\)] *)
Definition local_issue_link : regex :=
  Seq (Lit (chars "("))
 (Seq (Lit (chars "#"))
 (Seq (Grp 1 (Rep true 1 is_digit))
      (Lit (chars ")")))).

(** [^[\s\S]+?(?=[(\[\n]|https?://|$)] *)
Definition text : regex :=
  Seq Bos
 (Seq (Rep false 1 any_char)
      (Ahead true
        (Alt (Cls (one_of ["("; "["; nl]))
        (Alt (Seq (Lit (chars "http"))
             (Seq (Opt (Lit (chars "s")))
                  (Lit (chars "://"))))
             Eos)))).

(** The names in [rules]; [getattr(self, key)] is [pattern key] and
    [getattr(self, 'parse_' + key)] is [callback self key]. *)
Inductive rule : Type :=
| Heading | Bullet | ChangeType | Url | LocalIssueLink | Text.

Definition rules : list rule :=
  [Heading; Bullet; ChangeType; Url; LocalIssueLink; Text].

Definition pattern (key : rule) : regex :=
  match key with
  | Heading => heading
  | Bullet => bullet
  | ChangeType => change_type
  | Url => url
  | LocalIssueLink => local_issue_link
  | Text => text
  end.

Definition parse_heading (renderer : Renderer.t) (m : rmatch) : str :=
  Renderer.heading renderer (group m 0).
Definition parse_bullet (renderer : Renderer.t) (m : rmatch) : str :=
  Renderer.bullet renderer (group m 1).
Definition parse_change_type (renderer : Renderer.t) (m : rmatch) : str :=
  Renderer.change_type renderer (group m 1).
Definition parse_url (renderer : Renderer.t) (m : rmatch) : str :=
  Renderer.url renderer (group m 1).
Definition parse_local_issue_link (renderer : Renderer.t) (m : rmatch) : str :=
  Renderer.local_issue_link renderer (group m 1).
Definition parse_text (renderer : Renderer.t) (m : rmatch) : str :=
  Renderer.text renderer (group m 0).

Definition callback (renderer : Renderer.t) (key : rule) : rmatch -> str :=
  match key with
  | Heading => parse_heading renderer
  | Bullet => parse_bullet renderer
  | ChangeType => parse_change_type renderer
  | Url => parse_url renderer
  | LocalIssueLink => parse_local_issue_link renderer
  | Text => parse_text renderer
  end.

(** The [for key in self.rules] loop: the callback's result and the match
    of the first rule that matches, [None] when the loop ends without
    [break]. *)
Fixpoint for_rules (renderer : Renderer.t) (keys : list rule) (text : str)
  : option (str * rmatch) :=
  match keys with
  | [] => None
  | key :: keys' =>
      match re_match (pattern key) text with
      | None => for_rules renderer keys' text
      | Some m => Some (callback renderer key m, m)
      end
  end.

(** The [while text] loop, one iteration per unit of fuel.  When no rule
    matches, the source goes round again with [text] unchanged. *)
Fixpoint translate_loop (renderer : Renderer.t) (fuel : nat)
         (text result : str) : option str :=
  match fuel with
  | 0 => None
  | S fuel' =>
      match text with
      | [] => Some result
      | _ :: _ =>
          match for_rules renderer rules text with
          | Some (callback_result, m) =>
              translate_loop renderer fuel'
                (skipn (length (group m 0)) text)
                (result ++ callback_result)
          | None => translate_loop renderer fuel' text result
          end
      end
  end.

Definition translate (renderer : Renderer.t) (text : str) : option str :=
  translate_loop renderer (S (length text)) text [].

(** The iterations of the loop: the same loop, keeping for each iteration
    the callback's result and the match instead of their effect on [result]
    and [text]. *)
Fixpoint trace (renderer : Renderer.t) (fuel : nat) (text : str)
  : option (list (str * rmatch)) :=
  match fuel with
  | 0 => None
  | S fuel' =>
      match text with
      | [] => Some []
      | _ :: _ =>
          match for_rules renderer rules text with
          | Some (callback_result, m) =>
              option_map (cons (callback_result, m))
                (trace renderer fuel' (skipn (length (group m 0)) text))
          | None => trace renderer fuel' text
          end
      end
  end.

(** What an iteration appended to [result] and what it cut off [text]. *)
Definition rendered (step : str * rmatch) : str := fst step.
Definition span_of (step : str * rmatch) : str := group (snd step) 0.

End Translator.

(** ** Vocabulary of the properties *)

(** The least number of characters a pattern consumes. *)
Fixpoint min_len (r : regex) : nat :=
  match r with
  | Bos | Eos | Opt _ | Ahead _ _ => 0
  | Lit l => length l
  | Cls _ => 1
  | Rep _ lo _ => lo
  | Seq r1 r2 => min_len r1 + min_len r2
  | Alt r1 r2 => Nat.min (min_len r1) (min_len r2)
  | Grp _ r1 => min_len r1
  end.

(** Every suffix of a text, and the suffixes that start a line. *)
Fixpoint tails (s : str) : list str :=
  s :: match s with [] => [] | _ :: s' => tails s' end.

Fixpoint after_newlines (s : str) : list str :=
  match s with
  | [] => []
  | c :: s' => if is_nl c then s' :: after_newlines s' else after_newlines s'
  end.

Definition line_starts (s : str) : list str := s :: after_newlines s.

(** [\[\w+\]]: a bracketed word, whatever follows it. *)
Definition bracketed_word : regex :=
  Seq (Lit (chars "[")) (Seq (Rep true 1 is_word) (Lit (chars "]"))).

Definition absent (r : regex) (places : list str) : bool :=
  forallb (fun t => negb (matches r t)) places.

(** A text with none of the constructs the special rules look for, each
    taken as the rule's pattern has it: no [#] and no list marker (optional
    whitespace, a marker and a space) at the start of a line; no bracketed
    word, no URL and no parenthesised issue number anywhere. *)
Definition trigger_free (s : str) : bool :=
  absent (Lit (chars "#")) (line_starts s)
  && absent Translator.bullet (line_starts s)
  && absent bracketed_word (tails s)
  && absent Translator.url (tails s)
  && absent Translator.local_issue_link (tails s).

(** The list markers of the bullet rule. *)
Definition is_marker : ascii -> bool := one_of ["*"; "+"; "-"].

(** Where the fallback rule may stop: at the end of the text or before one
    of the characters its lookahead starts with. *)
Definition at_boundary (s : str) : bool :=
  match s with
  | [] => true
  | c :: _ => one_of ["("; "["; nl; "h"] c
  end.

(** The two remote URL shapes, read literally. *)
Definition ssh_prefix : str := chars "git@github.com:".
Definition https_prefix : str := chars "https://github.com/".

Definition remote_shape (url repo : str) : Prop :=
  url = ssh_prefix ++ repo ++ chars ".git"
  \/ url = https_prefix ++ repo ++ chars ".git".

(** The remote URLs [find_local_repo] accepts: either shape, on one line,
    with or without the newline that ends the output of [git config]. *)
Definition accepted_remote (url repo : str) : Prop :=
  forallb dot repo = true
  /\ exists prefix tail,
       (prefix = ssh_prefix \/ prefix = https_prefix)
       /\ (tail = [] \/ tail = [nl])
       /\ url = prefix ++ repo ++ chars ".git" ++ tail.

(** An issue URL of the tracker, and the link it is rewritten to. *)
Definition issue_url (repo issue : str) : str :=
  chars "https://github.com/" ++ repo ++ chars "/issues/" ++ issue.

Definition issue_link (text repo issue : str) : str :=
  chars "[" ++ text ++ chars "](//github.com/" ++ repo
  ++ chars "/issues/" ++ issue ++ chars ")".

(** The changelog section and the renderer of the end-to-end scenario. *)
Definition changelog_1_2_0 : str :=
  chars "## 1.2.0" ++ nl :: chars "- [added] Support for X (#12)" ++ [nl].

Definition widgets : Renderer.t :=
  Renderer.Make (chars "org/repo") (Some (chars "{{widgets}}")).

(** ** Reading the changelog *)

(** What iterating over a file opened with mode ['r'] yields, as a function
    of the file's content: the lines, each with the newline that ends it
    (the last line may have none). *)
Fixpoint file_lines (s : str) : list str :=
  match s with
  | [] => []
  | c :: s' =>
      if is_nl c then [c] :: file_lines s'
      else match file_lines s' with
           | [] => [[c]]
           | line :: lines => (c :: line) :: lines
           end
  end.

(** [read_file], given the content of the file. *)
Definition read_file (content : str) : str := content.

(** Truth value of a string or [None]. *)
Definition truthy (o : option str) : bool :=
  match o with
  | Some (_ :: _) => true
  | _ => false
  end.

Module ReadChangelogSection.

(** [^#.*%s % re.escape(single_version)]: the escaped version is the pattern
    that matches it literally. *)
Definition version_heading (single_version : str) : regex :=
  Seq Bos
 (Seq (Lit (chars "#"))
 (Seq (Rep true 0 dot)
      (Lit single_version))).

(** [^#([^\d]* )\d] *)
Definition numbered_heading : regex :=
  Seq Bos
 (Seq (Lit (chars "#"))
 (Seq (Grp 1 (Rep true 0 (fun c => negb (is_digit c))))
      (Cls is_digit))).

Definition initial_heading (single_version : option str) : regex :=
  if truthy single_version then
    version_heading (match single_version with Some v => v | None => [] end)
  else numbered_heading.

(** [^#] *)
Definition heading : regex := Seq Bos (Lit (chars "#")).

(** The [for line in fd] loop, with its two variables [initial] and
    [result]; [break] returns [result] as it is. *)
Fixpoint for_lines (initial_heading : regex) (lines : list str)
         (initial : bool) (result : list str) : list str :=
  match lines with
  | [] => result
  | line :: lines' =>
      if initial then
        if matches initial_heading line
        then for_lines initial_heading lines' false (result ++ [line])
        else for_lines initial_heading lines' true result
      else
        if matches heading line then result
        else for_lines initial_heading lines' false (result ++ [line])
  end.

(** [while result and result[-1] == '\n': result.pop()], on the reversed
    list. *)
Fixpoint pop_newlines (reversed : list str) : list str :=
  match reversed with
  | [] => []
  | line :: reversed' =>
      if str_eqb line [nl] then pop_newlines reversed' else reversed
  end.

Definition prune (result : list str) : list str :=
  rev (pop_newlines (rev result)).

(** The lines the function joins. *)
Definition section_lines (content : str) (single_version : option str)
  : list str :=
  prune (for_lines (initial_heading single_version) (file_lines content)
                   true []).

End ReadChangelogSection.

(** [read_changelog_section], given the content of the file. *)
Definition read_changelog_section (content : str)
           (single_version : option str) : str :=
  concat (ReadChangelogSection.section_lines content single_version).

(** ** The driver *)

Definition PRODUCTS : list (str * str) :=
  [ (chars "Firebase/Auth/CHANGELOG.md", chars "{{auth}}");
    (chars "Firebase/Core/CHANGELOG.md", NO_HEADING);
    (chars "Firebase/Database/CHANGELOG.md", chars "{{database}}");
    (chars "Firebase/DynamicLinks/CHANGELOG.md", chars "{{ddls}}");
    (chars "Firebase/InAppMessaging/CHANGELOG.md", chars "{{inapp_messaging}}");
    (chars "Firebase/InstanceID/CHANGELOG.md", chars "InstanceID");
    (chars "Firebase/Messaging/CHANGELOG.md", chars "{{messaging}}");
    (chars "Firebase/Storage/CHANGELOG.md", chars "{{storage}}");
    (chars "Firestore/CHANGELOG.md", chars "{{firestore}}");
    (chars "Functions/CHANGELOG.md", chars "{{cloud_functions}}") ].

(** [d.get(key)] *)
Fixpoint dict_find (d : list (str * str)) (key : str) : option str :=
  match d with
  | [] => None
  | (k, v) :: d' => if str_eqb k key then Some v else dict_find d' key
  end.

(** What [parse_args] returns; [--repo] and [--only] are [None] when they
    are not given. *)
Record Args : Type := MkArgs {
  args_repo : option str;
  args_only : option str;
  args_all : bool;
  args_changelog : str
}.

(** [main], as a function of what [git config] printed, the parsed command
    line and the content of the changelog file; the result is what is
    printed, or the exception raised.  [None] stands for a translation that
    does not end. *)
Definition main (remote_url : str) (args : Args) (content : str)
  : option (str + exn) :=
  match find_local_repo remote_url with
  | inr e => Some (inr e)
  | inl local_repo =>
      let repo :=
        match args_repo args with Some r => r | None => local_repo end in
      let text :=
        if args_all args then read_file content
        else read_changelog_section content (args_only args) in
      let product :=
        if args_all args then None
        else dict_find PRODUCTS (args_changelog args) in
      let renderer := Renderer.Make repo product in
      match Translator.translate renderer text with
      | Some result => Some (inl (result ++ [nl]))
      | None => None
      end
  end.

(** ** Vocabulary of the further properties *)

(** The characters that may stand in a URL but not end it. *)
Definition url_trail (c : ascii) : bool :=
  Translator.url_body c && negb (Translator.url_last c).

(** [(?=[(\[\n]|https?://|$)], without the [(?=)]. *)
Definition text_lookahead : regex :=
  Alt (Cls (one_of ["("; "["; nl]))
 (Alt (Seq (Lit (chars "http"))
      (Seq (Opt (Lit (chars "s")))
           (Lit (chars "://"))))
      Eos).

(** The lookahead of the fallback rule, as a test on the text that follows:
    the end of the text, one of [(], [[] and the newline, or a URL scheme. *)
Definition text_stop (t : str) : bool :=
  match t with
  | [] => true
  | c :: _ =>
      one_of ["("; "["; nl] c
      || starts_with (chars "http://") t
      || starts_with (chars "https://") t
  end.

(** The number of characters after which the lookahead first holds. *)
Fixpoint first_stop (s : str) : nat :=
  match s with
  | [] => 0
  | _ :: t => if text_stop t then 1 else S (first_stop t)
  end.

(** One line of a file: characters other than newlines, then a newline or
    the end of the file. *)
Definition one_line (line : str) : Prop :=
  exists x e, line = x ++ e /\ line <> [] /\ forallb dot x = true
              /\ (e = [] \/ e = [nl]).

(** ** Strings and character classes *)

Lemma str_eqb_eq (a b : str) : str_eqb a b = true <-> a = b.
Proof.
  revert b; induction a as [|x a IH]; intros [|y b]; simpl;
    try (split; congruence).
  rewrite andb_true_iff, Ascii.eqb_eq, IH.
  split; [intros [-> ->]; reflexivity | intros [= -> ->]; auto].
Qed.

Lemma str_eqb_neq (a b : str) : a <> b -> str_eqb a b = false.
Proof.
  intros H; destruct (str_eqb a b) eqn:E; [|reflexivity].
  apply str_eqb_eq in E; contradiction.
Qed.

Lemma strip_prefix_app (p s : str) : strip_prefix p (p ++ s) = Some s.
Proof.
  induction p as [|a p IH]; simpl; [reflexivity|].
  rewrite Ascii.eqb_refl; exact IH.
Qed.

Lemma strip_prefix_inv (p s t : str) : strip_prefix p s = Some t -> s = p ++ t.
Proof.
  revert s; induction p as [|a p IH]; intros [|b s]; simpl;
    try congruence.
  destruct (Ascii.eqb a b) eqn:E; [|discriminate].
  apply Ascii.eqb_eq in E; subst b; intros H; f_equal; auto.
Qed.

Lemma starts_with_app (p s : str) : starts_with p (p ++ s) = true.
Proof. unfold starts_with; rewrite strip_prefix_app; reflexivity. Qed.

Lemma starts_with_inv (p s : str) :
  starts_with p s = true -> exists t, s = p ++ t.
Proof.
  unfold starts_with; destruct (strip_prefix p s) as [t|] eqn:E;
    [|discriminate].
  intros _; exists t; apply strip_prefix_inv; exact E.
Qed.

Lemma skipn_length_app {A : Type} (l t : list A) : skipn (length l) (l ++ t) = t.
Proof. induction l; simpl; auto. Qed.

Lemma firstn_length_app {A : Type} (l t : list A) : firstn (length l) (l ++ t) = l.
Proof. induction l; simpl; [destruct t|f_equal]; auto. Qed.

Lemma span_le (p : ascii -> bool) (s : str) : span p s <= length s.
Proof. induction s as [|c s IH]; simpl; [|destruct (p c); simpl]; lia. Qed.

Lemma span_all (p : ascii -> bool) (s t : str) :
  forallb p s = true ->
  match t with [] => True | c :: _ => p c = false end ->
  span p (s ++ t) = length s.
Proof.
  intros Hs Ht; induction s as [|c s IH]; simpl in *.
  - destruct t as [|c t]; simpl; [reflexivity | rewrite Ht; reflexivity].
  - apply andb_true_iff in Hs as [-> Hs]; f_equal; auto.
Qed.

Lemma span_prefix (p : ascii -> bool) (s t : str) :
  forallb p s = true -> length s <= span p (s ++ t).
Proof.
  induction s as [|c s IH]; simpl; [lia|].
  intros H; apply andb_true_iff in H as [-> H]; apply IH in H; lia.
Qed.

Lemma span_firstn (p : ascii -> bool) (s : str) (k : nat) :
  k <= span p s -> forallb p (firstn k s) = true.
Proof.
  revert k; induction s as [|c s IH]; intros [|k]; simpl; auto.
  destruct (p c); simpl; [intros; apply IH; lia | lia].
Qed.

(** ** The matcher *)

Lemma in_rep_counts (greedy : bool) (lo hi k : nat) :
  In k (rep_counts greedy lo hi) <-> lo <= k <= hi.
Proof.
  unfold rep_counts; destruct greedy; [rewrite <- in_rev|];
    rewrite in_seq; lia.
Qed.

Lemma rep_counts_greedy (lo hi : nat) :
  lo <= hi -> rep_counts true lo hi = hi :: rev (seq lo (hi - lo)).
Proof.
  intros H; unfold rep_counts.
  replace (S hi - lo) with (S (hi - lo)) by lia.
  rewrite seq_S, rev_app_distr; simpl.
  replace (lo + (hi - lo)) with hi by lia; reflexivity.
Qed.

Lemma in_run_Seq (r1 r2 : regex) (st st' : mstate) :
  In st' (run (Seq r1 r2) st)
  <-> exists mid, In mid (run r1 st) /\ In st' (run r2 mid).
Proof. simpl; apply in_flat_map. Qed.

Lemma in_run_Bos (st st' : mstate) :
  In st' (run Bos st) <-> pos st = 0 /\ st' = st.
Proof.
  simpl; destruct (Nat.eqb (pos st) 0) eqn:E; simpl.
  - apply Nat.eqb_eq in E; intuition.
  - apply Nat.eqb_neq in E; intuition.
Qed.

Lemma in_run_Eos (st st' : mstate) :
  In st' (run Eos st) <-> (rest st = [] \/ rest st = [nl]) /\ st' = st.
Proof.
  simpl; destruct (rest st) as [|c [|d t]]; simpl.
  - intuition.
  - unfold is_nl; destruct (Ascii.eqb c nl) eqn:E; simpl.
    + apply Ascii.eqb_eq in E; subst c; intuition.
    + apply Ascii.eqb_neq in E; intuition congruence.
  - intuition congruence.
Qed.

Lemma in_run_Lit (l : str) (st st' : mstate) :
  In st' (run (Lit l) st)
  <-> (exists t, rest st = l ++ t) /\ st' = advance (length l) st.
Proof.
  simpl; destruct (starts_with l (rest st)) eqn:E; simpl.
  - apply starts_with_inv in E; intuition.
  - split; [tauto|]; intros [[t Ht] _].
    rewrite Ht, starts_with_app in E; discriminate.
Qed.

Lemma in_run_Cls (p : ascii -> bool) (st st' : mstate) :
  In st' (run (Cls p) st)
  <-> (exists c t, rest st = c :: t /\ p c = true) /\ st' = advance 1 st.
Proof.
  simpl; destruct (rest st) as [|c t]; simpl.
  - split; [tauto|]; intros [(c & t & H & _) _]; discriminate.
  - destruct (p c) eqn:E; simpl.
    + split; [intros [<-|[]]; eauto | intuition].
    + split; [tauto|]; intros [(c' & t' & [= <- <-] & H) _]; congruence.
Qed.

Lemma in_run_Rep (greedy : bool) (lo : nat) (p : ascii -> bool)
      (st st' : mstate) :
  In st' (run (Rep greedy lo p) st)
  <-> exists k, lo <= k <= span p (rest st) /\ st' = advance k st.
Proof.
  simpl; rewrite in_map_iff; split; intros (k & H1 & H2).
  - apply in_rep_counts in H2; eauto.
  - exists k; rewrite in_rep_counts; auto.
Qed.

Lemma in_run_Opt (r : regex) (st st' : mstate) :
  In st' (run (Opt r) st) <-> In st' (run r st) \/ st' = st.
Proof. simpl; rewrite in_app_iff; simpl; intuition. Qed.

Lemma in_run_Alt (r1 r2 : regex) (st st' : mstate) :
  In st' (run (Alt r1 r2) st) <-> In st' (run r1 st) \/ In st' (run r2 st).
Proof. simpl; apply in_app_iff. Qed.

Lemma in_run_Grp (n : nat) (r : regex) (st st' : mstate) :
  In st' (run (Grp n r) st)
  <-> exists st1, In st1 (run r st)
        /\ st' = set_group n (firstn (pos st1 - pos st) (rest st)) st1.
Proof.
  simpl; rewrite in_map_iff; split; intros (st1 & H1 & H2); eauto.
Qed.

Lemma in_run_Ahead (sign : bool) (r : regex) (st st' : mstate) :
  In st' (run (Ahead sign r) st)
  <-> (if sign then run r st <> [] else run r st = []) /\ st' = st.
Proof.
  simpl; destruct sign, (run r st); simpl; intuition congruence.
Qed.

(** Every way a pattern matches consumes a prefix of what is left, of at
    least [min_len] characters. *)
Lemma run_advances (r : regex) :
  forall st st', In st' (run r st) ->
  exists k, min_len r <= k /\ k <= length (rest st)
            /\ pos st' = pos st + k /\ rest st' = skipn k (rest st).
Proof.
  induction r as [| |l|p|g lo p|r IH|r1 IH1 r2 IH2|r1 IH1 r2 IH2|n r IH|s r IH];
    intros st st' H.
  - apply in_run_Bos in H as [_ ->]; exists 0; simpl; repeat split; lia.
  - apply in_run_Eos in H as [_ ->]; exists 0; simpl; repeat split; lia.
  - apply in_run_Lit in H as [[t Ht] ->]; exists (length l); simpl.
    rewrite Ht, length_app; repeat split; lia.
  - apply in_run_Cls in H as [(c & t & Ht & _) ->]; exists 1; simpl.
    rewrite Ht; simpl; repeat split; lia.
  - apply in_run_Rep in H as (k & Hk & ->); exists k; simpl.
    pose proof (span_le p (rest st)); repeat split; lia.
  - apply in_run_Opt in H as [H| ->]; [|exists 0; simpl; repeat split; lia].
    destruct (IH _ _ H) as (k & ? & ? & ? & ?); exists k; simpl.
    repeat split; auto; lia.
  - apply in_run_Seq in H as (mid & H1 & H2).
    destruct (IH1 _ _ H1) as (k1 & ? & ? & Hp1 & Hr1).
    destruct (IH2 _ _ H2) as (k2 & ? & Hl2 & Hp2 & Hr2).
    rewrite Hr1, length_skipn in Hl2.
    exists (k1 + k2); simpl; repeat split; try lia.
    rewrite Hr2, Hr1, skipn_skipn; f_equal; lia.
  - apply in_run_Alt in H as [H|H];
      [destruct (IH1 _ _ H) as (k & ? & ? & ? & ?)
      |destruct (IH2 _ _ H) as (k & ? & ? & ? & ?)];
      exists k; simpl; repeat split; auto; lia.
  - apply in_run_Grp in H as (st1 & H & ->).
    destruct (IH _ _ H) as (k & ? & ? & ? & ?); exists k; simpl; auto.
  - apply in_run_Ahead in H as [_ ->]; exists 0; simpl; repeat split; lia.
Qed.

Lemma re_match_some (r : regex) (s : str) (m : rmatch) :
  re_match r s = Some m ->
  exists st', In st' (run r (MState 0 s []))
              /\ m = RMatch (firstn (pos st') s) (caps st').
Proof.
  unfold re_match; destruct (run r (MState 0 s [])) as [|st' l];
    [discriminate|].
  intros [= <-]; exists st'; simpl; auto.
Qed.

Lemma matches_false_none (r : regex) (s : str) :
  matches r s = false -> re_match r s = None.
Proof. unfold matches; destruct (re_match r s); congruence. Qed.

Lemma matches_in (r : regex) (s : str) (st' : mstate) :
  In st' (run r (MState 0 s [])) -> matches r s = true.
Proof.
  unfold matches, re_match; destruct (run r (MState 0 s [])); simpl;
    [tauto | reflexivity].
Qed.

Lemma matches_inv (r : regex) (s : str) :
  matches r s = true -> exists st', In st' (run r (MState 0 s [])).
Proof.
  unfold matches, re_match; destruct (run r (MState 0 s [])) as [|st' l];
    [discriminate | exists st'; simpl; auto].
Qed.

(** What [re.match] reports is a prefix of the subject, [min_len] long at
    least. *)
Lemma re_match_group0 (r : regex) (s : str) (m : rmatch) :
  re_match r s = Some m ->
  exists k, min_len r <= k /\ k <= length s /\ group m 0 = firstn k s.
Proof.
  intros H; apply re_match_some in H as (st' & H & ->).
  apply run_advances in H as (k & ? & ? & Hp & _); simpl in *.
  exists k; subst; auto.
Qed.

(** ** The rules and the loop *)

Lemma span_any (s : str) : span any_char s = length s.
Proof. induction s; simpl; auto. Qed.

Lemma pattern_min_len (key : Translator.rule) :
  1 <= min_len (Translator.pattern key).
Proof. destruct key; simpl; lia. Qed.

(** The fallback rule matches every non-empty text. *)
Lemma text_always_matches (c : ascii) (t : str) :
  matches Translator.text (c :: t) = true.
Proof.
  set (s := c :: t).
  apply (matches_in _ _ (advance (length s) (MState 0 s []))).
  unfold Translator.text.
  apply in_run_Seq; exists (MState 0 s []); split;
    [apply in_run_Bos; auto|].
  apply in_run_Seq; exists (advance (length s) (MState 0 s [])); split.
  - apply in_run_Rep; exists (length s); split; [|reflexivity].
    simpl rest; rewrite span_any; subst s; simpl; lia.
  - apply in_run_Ahead; split; [|reflexivity].
    assert (H : In (advance (length s) (MState 0 s []))
                   (run Eos (advance (length s) (MState 0 s [])))).
    { apply in_run_Eos; split; [left|reflexivity].
      simpl; apply skipn_all. }
    intros E; simpl in E; apply app_eq_nil in E as [_ E].
    apply app_eq_nil in E as [_ E].
    simpl in H; rewrite E in H; exact H.
Qed.

Section Loop.

Variable self : Renderer.t.

Lemma for_rules_inv (keys : list Translator.rule)
      (t cb : str) (m : rmatch) :
  Translator.for_rules self keys t = Some (cb, m) ->
  exists key, In key keys
              /\ re_match (Translator.pattern key) t = Some m
              /\ cb = Translator.callback self key m.
Proof.
  induction keys as [|key keys IH]; simpl; [discriminate|].
  destruct (re_match (Translator.pattern key) t) as [m'|] eqn:E.
  - intros [= <- <-]; exists key; auto.
  - intros H; destruct (IH H) as (key' & ? & ? & ?); exists key'; auto.
Qed.

Lemma for_rules_matches (keys : list Translator.rule)
      (t : str) (key : Translator.rule) :
  In key keys -> matches (Translator.pattern key) t = true ->
  Translator.for_rules self keys t <> None.
Proof.
  induction keys as [|key' keys IH]; simpl; [tauto|].
  intros [->|Hin] Hm.
  - unfold matches in Hm.
    destruct (re_match (Translator.pattern key) t); [|discriminate].
    discriminate.
  - destruct (re_match (Translator.pattern key') t); [discriminate|].
    auto.
Qed.

(** Some rule matches a non-empty prefix of every non-empty text. *)
Lemma for_rules_progress (t : str) :
  t <> [] ->
  exists cb m k,
    Translator.for_rules self Translator.rules t = Some (cb, m)
    /\ 1 <= k <= length t /\ group m 0 = firstn k t.
Proof.
  intros Ht; destruct t as [|c t]; [congruence|].
  destruct (Translator.for_rules self Translator.rules (c :: t))
    as [[cb m]|] eqn:E.
  - destruct (for_rules_inv _ _ _ _ E) as (key & _ & Hm & _).
    apply re_match_group0 in Hm as (k & Hk & ? & ?).
    pose proof (pattern_min_len key).
    exists cb, m, k; repeat split; auto; lia.
  - exfalso; revert E.
    apply (for_rules_matches _ _ Translator.Text);
      [simpl; tauto | apply text_always_matches].
Qed.

Lemma length_firstn_le {A : Type} (k : nat) (l : list A) :
  k <= length l -> length (firstn k l) = k.
Proof. intros H; rewrite length_firstn; lia. Qed.

Lemma translate_loop_cons (n : nat) (c : ascii)
      (t acc : str) :
  Translator.translate_loop self (S n) (c :: t) acc
  = match Translator.for_rules self Translator.rules (c :: t) with
    | Some (cb, m) =>
        Translator.translate_loop self n
          (skipn (length (group m 0)) (c :: t)) (acc ++ cb)
    | None => Translator.translate_loop self n (c :: t) acc
    end.
Proof. reflexivity. Qed.

Lemma trace_cons (n : nat) (c : ascii) (t : str) :
  Translator.trace self (S n) (c :: t)
  = match Translator.for_rules self Translator.rules (c :: t) with
    | Some (cb, m) =>
        option_map (cons (cb, m))
          (Translator.trace self n (skipn (length (group m 0)) (c :: t)))
    | None => Translator.trace self n (c :: t)
    end.
Proof. reflexivity. Qed.

Lemma translate_loop_acc (n : nat) :
  forall t acc,
    Translator.translate_loop self n t acc
    = option_map (app acc) (Translator.translate_loop self n t []).
Proof.
  induction n as [|n IH]; intros t acc; [reflexivity|].
  destruct t as [|c t]; [simpl; rewrite app_nil_r; reflexivity|].
  rewrite !translate_loop_cons.
  destruct (Translator.for_rules self Translator.rules (c :: t))
    as [[cb m]|]; [|apply IH].
  rewrite IH, (IH _ ([] ++ cb)); simpl app.
  destruct (Translator.translate_loop self n _ []); simpl;
    [rewrite app_assoc|]; reflexivity.
Qed.

(** Once the fuel exceeds the length of the text, more fuel changes
    nothing. *)
Lemma translate_loop_fuel (n : nat) :
  forall n' t acc, length t < n -> length t < n' ->
    Translator.translate_loop self n t acc
    = Translator.translate_loop self n' t acc.
Proof.
  induction n as [|n IH]; intros [|n'] t acc H H'; try lia.
  destruct t as [|c t]; [reflexivity|].
  rewrite !translate_loop_cons.
  destruct (for_rules_progress (c :: t)) as (cb & m & k & -> & Hk & Hg);
    [discriminate|].
  rewrite Hg, length_firstn_le by lia.
  apply IH; rewrite length_skipn; lia.
Qed.

Lemma translate_loop_total (n : nat) :
  forall t acc, length t < n ->
    exists out, Translator.translate_loop self n t acc = Some out.
Proof.
  induction n as [|n IH]; intros t acc H; [lia|].
  destruct t as [|c t]; [simpl; eauto|].
  rewrite translate_loop_cons.
  destruct (for_rules_progress (c :: t)) as (cb & m & k & -> & Hk & Hg);
    [discriminate|].
  rewrite Hg, length_firstn_le by lia.
  apply IH; rewrite length_skipn; lia.
Qed.

(** One iteration of the loop, on the results. *)
Lemma translate_step (t cb : str) (m : rmatch) :
  t <> [] ->
  Translator.for_rules self Translator.rules t = Some (cb, m) ->
  Translator.translate self t
  = option_map (app cb)
      (Translator.translate self (skipn (length (group m 0)) t)).
Proof.
  intros Ht E.
  destruct (for_rules_progress t Ht) as (cb' & m' & k & E' & Hk & Hg).
  rewrite E in E'; injection E' as <- <-.
  unfold Translator.translate at 1.
  destruct t as [|c t]; [congruence|].
  change (length (c :: t)) with (S (length t)).
  rewrite translate_loop_cons, E, translate_loop_acc.
  rewrite Hg, length_firstn_le by lia.
  unfold Translator.translate; f_equal.
  change (S (length t)) with (length (c :: t)).
  apply translate_loop_fuel; rewrite length_skipn; lia.
Qed.

(** The loop and its trace: the result is what the iterations rendered, in
    order. *)
Lemma translate_loop_trace (n : nat) :
  forall t acc,
    Translator.translate_loop self n t acc
    = option_map
        (fun steps => acc ++ concat (map Translator.rendered steps))
        (Translator.trace self n t).
Proof.
  induction n as [|n IH]; intros t acc; [reflexivity|].
  destruct t as [|c t]; [simpl; rewrite app_nil_r; reflexivity|].
  rewrite translate_loop_cons, trace_cons.
  destruct (Translator.for_rules self Translator.rules (c :: t))
    as [[cb m]|]; [|apply IH].
  rewrite IH.
  destruct (Translator.trace self n _); simpl;
    [rewrite app_assoc|]; reflexivity.
Qed.

Lemma trace_total (n : nat) :
  forall t, length t < n ->
    exists steps, Translator.trace self n t = Some steps
                  /\ concat (map Translator.span_of steps) = t
                  /\ Forall (fun step => Translator.span_of step <> []) steps.
Proof.
  induction n as [|n IH]; intros t H; [lia|].
  destruct t as [|c t]; [exists []; simpl; auto|].
  rewrite trace_cons.
  destruct (for_rules_progress (c :: t)) as (cb & m & k & -> & Hk & Hg);
    [discriminate|].
  rewrite Hg, length_firstn_le by lia.
  destruct (IH (skipn k (c :: t))) as (steps & -> & Hc & Hne);
    [rewrite length_skipn; lia|].
  exists ((cb, m) :: steps); cbn [map concat]; rewrite Hc.
  change (Translator.span_of (cb, m)) with (group m 0); rewrite Hg.
  repeat split; [apply firstn_skipn|].
  constructor; [|exact Hne].
  change (Translator.span_of (cb, m)) with (group m 0); rewrite Hg.
  destruct k; [lia | discriminate].
Qed.

End Loop.

(** ** Reading a match backwards *)

Lemma nonempty_in {A : Type} (l : list A) : l <> [] -> exists x, In x l.
Proof. destruct l as [|x l]; [congruence | exists x; simpl; auto]. Qed.

(** Decomposes a hypothesis [In st' (run r st)] along the pattern [r]. *)
Ltac run_inv H :=
  lazymatch type of H with
  | In _ (run (Seq _ _) _) =>
      let mid := fresh "mid" in
      let H1 := fresh "Hm" in
      apply in_run_Seq in H; destruct H as (mid & H1 & H);
      run_inv H1; run_inv H
  | In _ (run Bos _) =>
      apply in_run_Bos in H; destruct H as [_ H]; subst
  | In _ (run Eos _) =>
      let E := fresh "Heos" in
      apply in_run_Eos in H; destruct H as [E H]; simpl in E; subst
  | In _ (run (Lit _) _) =>
      let t := fresh "t" in
      let E := fresh "Hlit" in
      apply in_run_Lit in H; destruct H as [[t E] H]; simpl in E; subst
  | In _ (run (Cls _) _) =>
      let c := fresh "c" in
      let t := fresh "t" in
      let E := fresh "Hcls" in
      let Hc := fresh "Hc" in
      apply in_run_Cls in H; destruct H as [(c & t & E & Hc) H];
      simpl in E; subst
  | In _ (run (Rep _ _ _) _) =>
      let k := fresh "k" in
      let Hk := fresh "Hk" in
      apply in_run_Rep in H; destruct H as (k & Hk & H); simpl in Hk; subst
  | In _ (run (Opt _) _) =>
      apply in_run_Opt in H; destruct H as [H|H]; [run_inv H | subst]
  | In _ (run (Alt _ _) _) =>
      apply in_run_Alt in H; destruct H as [H|H]; run_inv H
  | In _ (run (Grp _ _) _) =>
      let st1 := fresh "st" in
      let H1 := fresh "Hg" in
      apply in_run_Grp in H; destruct H as (st1 & H1 & H);
      run_inv H1; subst
  | In _ (run (Ahead _ _) _) =>
      let Hla := fresh "Hla" in
      apply in_run_Ahead in H; destruct H as [Hla H]; subst
  end.

Lemma heading_first (s : str) :
  matches Translator.heading s = true -> exists t, s = "#" :: t.
Proof.
  intros H; apply matches_inv in H as [st' H].
  unfold Translator.heading in H; run_inv H; eauto.
Qed.

Lemma change_type_first (s : str) :
  matches Translator.change_type s = true -> exists t, s = "[" :: t.
Proof.
  intros H; apply matches_inv in H as [st' H].
  unfold Translator.change_type in H; run_inv H; eauto.
Qed.

Lemma url_first (s : str) :
  matches Translator.url s = true -> exists t, s = "h" :: t.
Proof.
  intros H; apply matches_inv in H as [st' H].
  unfold Translator.url in H; run_inv H; eauto.
Qed.

Lemma local_issue_link_first (s : str) :
  matches Translator.local_issue_link s = true -> exists t, s = "(" :: t.
Proof.
  intros H; apply matches_inv in H as [st' H].
  unfold Translator.local_issue_link in H; run_inv H; eauto.
Qed.

(** The fallback rule consumes at least one character and stops at the end
    of the text or in front of [(], [[], a newline or an [h]. *)
Lemma text_match (s : str) (m : rmatch) :
  re_match Translator.text s = Some m ->
  exists k, 1 <= k <= length s /\ group m 0 = firstn k s
            /\ at_boundary (skipn k s) = true.
Proof.
  intros H; apply re_match_some in H as (st' & H & ->).
  unfold Translator.text in H; run_inv H.
  pose proof (span_le any_char s).
  exists k; simpl; repeat split; try lia.
  apply nonempty_in in Hla as [x Hx]; run_inv Hx.
  - rewrite Hcls; simpl in Hc |- *.
    destruct (Ascii.eqb c "("), (Ascii.eqb c "["), (Ascii.eqb c nl);
      simpl in *; auto; discriminate.
  - rewrite Hlit; reflexivity.
  - rewrite Hlit; reflexivity.
  - destruct Heos as [-> | ->]; reflexivity.
Qed.

(** ** The bullet rule *)

Lemma marker_not_space (c : ascii) : is_marker c = true -> is_space c = false.
Proof.
  unfold is_marker, is_space, one_of; simpl.
  destruct (Ascii.eqb_spec c "*"); [subst; reflexivity|].
  destruct (Ascii.eqb_spec c "+"); [subst; reflexivity|].
  destruct (Ascii.eqb_spec c "-"); [subst; reflexivity|].
  discriminate.
Qed.

(** When every way of matching ends at the same place with the same groups,
    that is the match. *)
Lemma re_match_unique (r : regex) (s : str) (st : mstate) :
  In st (run r (MState 0 s [])) ->
  (forall st', In st' (run r (MState 0 s [])) ->
               pos st' = pos st /\ caps st' = caps st) ->
  re_match r s = Some (RMatch (firstn (pos st) s) (caps st)).
Proof.
  intros Hin Hall; unfold re_match.
  destruct (run r (MState 0 s [])) as [|x l]; [destruct Hin|].
  destruct (Hall x) as [-> ->]; simpl; auto.
Qed.

Lemma bullet_parse (s : str) (st' : mstate) :
  In st' (run Translator.bullet (MState 0 s [])) ->
  exists ws c tail,
    s = ws ++ c :: " " :: tail
    /\ forallb is_space ws = true /\ is_marker c = true
    /\ pos st' = length ws + 2 /\ caps st' = [(1, ws)].
Proof.
  intros H; unfold Translator.bullet in H; run_inv H.
  rewrite Hcls in Hlit; subst t.
  pose proof (span_le is_space s).
  exists (firstn k s), c, t0; simpl.
  rewrite Nat.sub_0_r, length_firstn_le by lia.
  repeat split; auto; [|apply span_firstn; lia | lia].
  rewrite <- (firstn_skipn k s) at 1; rewrite Hcls; reflexivity.
Qed.

Lemma bullet_in (ws : str) (c : ascii) (tail : str) :
  forallb is_space ws = true -> is_marker c = true ->
  In (MState (length ws + 2) tail [(1, ws)])
     (run Translator.bullet (MState 0 (ws ++ c :: " " :: tail) [])).
Proof.
  intros Hws Hc; set (s := ws ++ c :: " " :: tail).
  assert (Hspan : span is_space s = length ws)
    by (apply span_all; [|apply marker_not_space]; assumption).
  unfold Translator.bullet.
  apply in_run_Seq; exists (MState 0 s []); split;
    [apply in_run_Bos; auto|].
  apply in_run_Seq; exists (MState (length ws) (c :: " " :: tail) [(1, ws)]).
  split.
  - apply in_run_Grp; exists (advance (length ws) (MState 0 s [])); split.
    + apply in_run_Rep; exists (length ws); simpl; rewrite Hspan.
      split; [lia | reflexivity].
    + unfold set_group, advance, s; simpl.
      rewrite Nat.sub_0_r, skipn_length_app, firstn_length_app; reflexivity.
  - apply in_run_Seq;
      exists (MState (length ws + 1) (" " :: tail) [(1, ws)]); split.
    + apply in_run_Cls; split; [exists c, (" " :: tail); auto | reflexivity].
    + apply in_run_Lit; split; [exists tail; reflexivity|].
      unfold advance; simpl; f_equal; lia.
Qed.

(** The bullet rule, forwards: optional whitespace, a marker and a space at
    the start of the text are matched, the whitespace is group 1. *)
Lemma bullet_match (ws : str) (c : ascii) (tail : str) :
  forallb is_space ws = true -> is_marker c = true ->
  re_match Translator.bullet (ws ++ c :: " " :: tail)
  = Some (RMatch (ws ++ [c; " "]) [(1, ws)]).
Proof.
  intros Hws Hc.
  rewrite (re_match_unique _ _ _ (bullet_in ws c tail Hws Hc)); simpl.
  - f_equal; f_equal.
    replace (length ws + 2) with (length (ws ++ [c; " "]))
      by (rewrite length_app; reflexivity).
    change (c :: " " :: tail) with ([c; " "] ++ tail).
    rewrite app_assoc; apply firstn_length_app.
  - intros st' H; apply bullet_parse in H
      as (ws' & c' & tail' & E & Hws' & Hc' & -> & ->).
    assert (L : length ws' = length ws).
    { rewrite <- (span_all is_space ws' (c' :: " " :: tail')),
              <- (span_all is_space ws (c :: " " :: tail)), E;
        auto; apply marker_not_space; assumption. }
    split; [lia|].
    apply (f_equal (firstn (length ws))) in E.
    rewrite firstn_length_app, <- L, firstn_length_app in E.
    subst; reflexivity.
Qed.

(** The bullet rule, backwards. *)
Lemma bullet_match_inv (s : str) (m : rmatch) :
  re_match Translator.bullet s = Some m ->
  exists ws c tail,
    s = ws ++ c :: " " :: tail
    /\ forallb is_space ws = true /\ is_marker c = true
    /\ m = RMatch (ws ++ [c; " "]) [(1, ws)].
Proof.
  intros H; pose proof H as H'.
  apply re_match_some in H as (st' & H & _).
  apply bullet_parse in H as (ws & c & tail & -> & Hws & Hc & _).
  rewrite bullet_match in H' by assumption.
  injection H' as <-; exists ws, c, tail; auto.
Qed.

(** ** Texts without trigger constructs *)

Lemma absent_in (r : regex) (places : list str) (t : str) :
  absent r places = true -> In t places -> matches r t = false.
Proof.
  unfold absent; rewrite forallb_forall; intros H Hin.
  apply negb_true_iff, H, Hin.
Qed.

Lemma in_tails (pre t : str) : In t (tails (pre ++ t)).
Proof.
  induction pre as [|c pre IH]; simpl.
  - destruct t; simpl; auto.
  - right; exact IH.
Qed.

Lemma in_after_newlines (pre t : str) : In t (after_newlines (pre ++ nl :: t)).
Proof.
  induction pre as [|c pre IH]; simpl; [left; reflexivity|].
  destruct (is_nl c); simpl; auto.
Qed.

Lemma in_line_starts (pre t : str) :
  pre = [] \/ (exists pre', pre = pre' ++ [nl]) -> In t (line_starts (pre ++ t)).
Proof.
  intros [-> | [pre' ->]]; [left; reflexivity|].
  right; rewrite <- app_assoc; apply in_after_newlines.
Qed.

Lemma change_type_bracketed (s : str) :
  matches Translator.change_type s = true -> matches bracketed_word s = true.
Proof.
  intros H; apply matches_inv in H as [st' H].
  unfold Translator.change_type in H.
  apply in_run_Seq in H as (m1 & H1 & H).
  apply in_run_Seq in H as (m2 & H2 & H).
  apply in_run_Seq in H as (m3 & H3 & _).
  apply in_run_Grp in H2 as (m2' & H2 & ->).
  apply in_run_Lit in H3 as [[t Ht] ->].
  apply (matches_in _ _ (advance (length (chars "]")) m2')).
  unfold bracketed_word.
  apply in_run_Seq; exists m1; split; [exact H1|].
  apply in_run_Seq; exists m2'; split; [exact H2|].
  apply in_run_Lit; split; [exists t; exact Ht | reflexivity].
Qed.

Lemma for_rules_cons (self : Renderer.t) (key : Translator.rule)
      (keys : list Translator.rule) (t : str) :
  Translator.for_rules self (key :: keys) t
  = match re_match (Translator.pattern key) t with
    | None => Translator.for_rules self keys t
    | Some m => Some (Translator.callback self key m, m)
    end.
Proof. reflexivity. Qed.

(** When none of the special rules matches, the fallback rule answers. *)
Lemma for_rules_fallback (self : Renderer.t) (t : str) :
  matches Translator.heading t = false ->
  matches Translator.bullet t = false ->
  matches Translator.change_type t = false ->
  matches Translator.url t = false ->
  matches Translator.local_issue_link t = false ->
  Translator.for_rules self Translator.rules t
  = match re_match Translator.text t with
    | Some m => Some (group m 0, m)
    | None => None
    end.
Proof.
  intros H1 H2 H3 H4 H5; unfold Translator.rules.
  rewrite for_rules_cons; unfold Translator.pattern at 1.
  rewrite (matches_false_none _ _ H1).
  rewrite for_rules_cons; unfold Translator.pattern at 1.
  rewrite (matches_false_none _ _ H2).
  rewrite for_rules_cons; unfold Translator.pattern at 1.
  rewrite (matches_false_none _ _ H3).
  rewrite for_rules_cons; unfold Translator.pattern at 1.
  rewrite (matches_false_none _ _ H4).
  rewrite for_rules_cons; unfold Translator.pattern at 1.
  rewrite (matches_false_none _ _ H5).
  rewrite for_rules_cons; unfold Translator.pattern at 1.
  destruct (re_match Translator.text t); reflexivity.
Qed.

Lemma boundary_cases (c : ascii) (t : str) :
  at_boundary (c :: t) = true -> c = "(" \/ c = "[" \/ c = nl \/ c = "h".
Proof.
  unfold at_boundary, one_of; simpl.
  destruct (Ascii.eqb_spec c "("); auto.
  destruct (Ascii.eqb_spec c "["); auto.
  destruct (Ascii.eqb_spec c nl); auto.
  destruct (Ascii.eqb_spec c "h"); auto.
  discriminate.
Qed.

(** At the start of the text and wherever the fallback rule stops, no
    special rule matches a text without trigger constructs. *)
Lemma trigger_free_special (text pre t : str) :
  trigger_free text = true ->
  text = pre ++ t ->
  pre = [] \/ at_boundary t = true ->
  matches Translator.heading t = false
  /\ matches Translator.bullet t = false
  /\ matches Translator.change_type t = false
  /\ matches Translator.url t = false
  /\ matches Translator.local_issue_link t = false.
Proof.
  unfold trigger_free; rewrite !andb_true_iff.
  intros [[[[Hh Hb] Hw] Hu] Hi] -> Hpos.
  pose proof (in_tails pre t) as Ht.
  repeat split.
  - destruct (matches Translator.heading t) eqn:E; [|reflexivity].
    apply heading_first in E as [t' ->].
    destruct Hpos as [-> | Hpos]; [|discriminate].
    rewrite <- (absent_in _ _ _ Hh (in_line_starts [] _ (or_introl eq_refl))).
    reflexivity.
  - destruct (matches Translator.bullet t) eqn:E; [|reflexivity].
    destruct Hpos as [-> | Hpos];
      [rewrite <- E; apply (absent_in _ _ _ Hb); left; reflexivity|].
    unfold matches in E.
    destruct (re_match Translator.bullet t) as [m|] eqn:Em; [|discriminate].
    apply bullet_match_inv in Em as (ws & c & tail & -> & Hws & Hc & _).
    destruct ws as [|w ws]; simpl in Hws.
    + apply (boundary_cases c (" " :: tail)) in Hpos
        as [-> | [-> | [-> | ->]]]; cbv in Hc; discriminate.
    + apply andb_true_iff in Hws as [Hw0 Hws].
      apply (boundary_cases w (ws ++ c :: " " :: tail)) in Hpos
        as [-> | [-> | [-> | ->]]]; try (cbv in Hw0; discriminate).
      assert (Hin : In (ws ++ c :: " " :: tail)
                       (line_starts (pre ++ (nl :: ws) ++ c :: " " :: tail)))
        by (right; apply in_after_newlines).
      rewrite <- (absent_in _ _ _ Hb Hin).
      unfold matches; rewrite bullet_match by assumption; reflexivity.
  - destruct (matches Translator.change_type t) eqn:E; [|reflexivity].
    apply change_type_bracketed in E.
    rewrite <- E; apply (absent_in _ _ _ Hw Ht).
  - apply (absent_in _ _ _ Hu Ht).
  - apply (absent_in _ _ _ Hi Ht).
Qed.

Lemma passthrough_loop (self : Renderer.t) (text : str) :
  trigger_free text = true ->
  forall n pre t acc,
    text = pre ++ t -> pre = [] \/ at_boundary t = true -> length t < n ->
    Translator.translate_loop self n t acc = Some (acc ++ t).
Proof.
  intros Hfree; induction n as [|n IH]; intros pre t acc E Hpos Hn; [lia|].
  destruct t as [|c t]; [simpl; rewrite app_nil_r; reflexivity|].
  destruct (trigger_free_special _ _ _ Hfree E Hpos)
    as (H1 & H2 & H3 & H4 & H5).
  rewrite translate_loop_cons, for_rules_fallback by assumption.
  pose proof (text_always_matches c t) as Hm; unfold matches in Hm.
  destruct (re_match Translator.text (c :: t)) as [m|] eqn:Em;
    [clear Hm | discriminate].
  apply text_match in Em as (k & Hk & Hg & Hb).
  rewrite Hg, length_firstn_le by lia.
  rewrite (IH (pre ++ firstn k (c :: t))).
  - rewrite <- app_assoc, firstn_skipn; reflexivity.
  - rewrite <- app_assoc, firstn_skipn; exact E.
  - right; exact Hb.
  - rewrite length_skipn; lia.
Qed.

(** ** Termination and coverage *)

(** C2.  [translate] terminates on every text: with fuel beyond the length
    of the text the loop returns, and more fuel changes nothing.  On every
    iteration some rule matches a non-empty prefix of the non-empty text that
    is left (the fallback rule always does), so the text left shrinks; the
    result is what the iterations rendered, and the spans they matched, put
    end to end, are the input: their lengths add up to its length. *)
Theorem translate_terminates_and_covers (self : Renderer.t) (text : str) :
  (exists out, Translator.translate self text = Some out)
  /\ (forall fuel, length text < fuel ->
        Translator.translate_loop self fuel text []
        = Translator.translate self text)
  /\ (forall t, t <> [] ->
        exists cb m,
          Translator.for_rules self Translator.rules t = Some (cb, m)
          /\ group m 0 <> []
          /\ t = group m 0 ++ skipn (length (group m 0)) t
          /\ length (skipn (length (group m 0)) t) < length t)
  /\ (forall t, t <> [] ->
        exists m, re_match Translator.text t = Some m /\ group m 0 <> [])
  /\ (exists steps,
        Translator.trace self (S (length text)) text = Some steps
        /\ Translator.translate self text
           = Some (concat (map Translator.rendered steps))
        /\ concat (map Translator.span_of steps) = text
        /\ Forall (fun step => Translator.span_of step <> []) steps
        /\ list_sum (map (fun step => length (Translator.span_of step)) steps)
           = length text).
Proof.
  split; [apply translate_loop_total; lia|].
  split; [intros fuel H; apply translate_loop_fuel; lia|].
  split; [|split].
  - intros t Ht.
    destruct (for_rules_progress self t Ht) as (cb & m & k & E & Hk & Hg).
    exists cb, m; rewrite Hg, length_firstn_le, length_skipn by lia.
    repeat split; auto; [|symmetry; apply firstn_skipn | lia].
    destruct k, t; simpl; try discriminate; try lia; congruence.
  - intros [|c t] Ht; [congruence|].
    pose proof (text_always_matches c t) as Hm; unfold matches in Hm.
    destruct (re_match Translator.text (c :: t)) as [m|] eqn:Em;
      [|discriminate].
    exists m; split; [reflexivity|].
    apply text_match in Em as (k & Hk & -> & _).
    destruct k; [lia | discriminate].
  - destruct (trace_total self (S (length text)) text)
      as (steps & E & Hc & Hne); [lia|].
    exists steps; repeat split; auto.
    + unfold Translator.translate; rewrite translate_loop_trace, E.
      reflexivity.
    + rewrite <- Hc, length_concat, map_map; reflexivity.
Qed.

(** ** Passthrough *)

(** C3.  A text with none of the trigger constructs ([trigger_free]: no [#]
    and no list marker, indented or not, at the start of a line, no
    bracketed word, no bare http or https URL, no parenthesised issue
    number) is translated to itself, whatever the renderer's
    configuration. *)
Theorem passthrough_identity (self : Renderer.t) (text : str) :
  trigger_free text = true ->
  Translator.translate self text = Some text.
Proof.
  intros H; unfold Translator.translate.
  apply (passthrough_loop self text H (S (length text)) [] text []); auto.
Qed.

Lemma passthrough_identity_witness :
  let text := chars "Notes (beta) [see below" ++ nl
              :: chars "not a # heading, 2 - 1 = 1" in
  trigger_free text = true
  /\ Translator.translate
       (Renderer.Make (chars "org/repo") (Some (chars "{{widgets}}"))) text
     = Some text.
Proof.
  split; [vm_compute; reflexivity|].
  apply passthrough_identity; vm_compute; reflexivity.
Defined.

(** ** End to end *)

(** C1, as the code behaves.  The heading rule stops in front of the newline
    that ends the heading line and [Renderer.heading] ends the product
    heading with a newline of its own, so the section [changelog_1_2_0],
    rendered for the product [{{widgets}}] with local repository [org/repo],
    has an empty line between the heading and the list. *)
Theorem translate_changelog_1_2_0 :
  Translator.translate widgets changelog_1_2_0
  = Some (chars "### {{widgets}}" ++ nl :: nl
          :: chars "* {{feature}} Support for X ([#12](//github.com/org/repo/issues/12))"
          ++ [nl]).
Proof. vm_compute; reflexivity. Qed.

(** C1, as stated, fails: the result is not the text with a single newline
    after the heading. *)
Lemma translate_changelog_1_2_0_single_newline :
  Translator.translate widgets changelog_1_2_0
  <> Some (chars "### {{widgets}}" ++ nl
           :: chars "* {{feature}} Support for X ([#12](//github.com/org/repo/issues/12))"
           ++ [nl]).
Proof. vm_compute; discriminate. Qed.

(** ** Headings *)

(** C4.  With the no-heading sentinel as product, [Renderer.heading] returns
    the empty string; with a product token [{{token}}] it returns
    [### {{token}}] and a newline, whatever the heading was (any product
    string that is neither empty nor the sentinel is emitted as it is,
    after [### ]); with no product it returns the heading unchanged. *)
Theorem heading_policy (local_repo heading : str) :
  Renderer.heading (Renderer.Make local_repo (Some NO_HEADING)) heading = []
  /\ (forall token,
        Renderer.heading
          (Renderer.Make local_repo (Some (chars "{{" ++ token ++ chars "}}")))
          heading
        = chars "### {{" ++ token ++ chars "}}" ++ [nl])
  /\ (forall product, product <> [] -> product <> NO_HEADING ->
        Renderer.heading (Renderer.Make local_repo (Some product)) heading
        = chars "### " ++ product ++ [nl])
  /\ Renderer.heading (Renderer.Make local_repo None) heading = heading.
Proof.
  repeat split.
  - intros token; unfold Renderer.heading; simpl.
    rewrite <- !app_assoc; reflexivity.
  - intros product Hne Hns; unfold Renderer.heading, Renderer.product_truthy.
    simpl; destruct product as [|c p]; [congruence|].
    rewrite str_eqb_neq by assumption; reflexivity.
Qed.

(** ** Change-type tags *)

(** C6.  [[feature]] is translated to [{{feature}}] and [[added]] to
    [{{feature}}]; every tag but [added] is wrapped as it is; [[fixed](link)]
    is not a change-type tag, and is translated to itself. *)
Theorem tag_macros (self : Renderer.t) :
  Translator.translate self (chars "[feature]") = Some (chars "{{feature}}")
  /\ Translator.translate self (chars "[added]") = Some (chars "{{feature}}")
  /\ (forall tag, tag <> chars "added" ->
        Renderer.change_type self tag = chars "{{" ++ tag ++ chars "}}")
  /\ Renderer.change_type self (chars "added") = chars "{{feature}}"
  /\ re_match Translator.change_type (chars "[fixed](link)") = None
  /\ Translator.translate self (chars "[fixed](link)")
     = Some (chars "[fixed](link)").
Proof.
  repeat split; try (vm_compute; reflexivity).
  intros tag H; unfold Renderer.change_type, CHANGE_TYPE_MAPPING, dict_get.
  rewrite str_eqb_neq by congruence; reflexivity.
Qed.

(** ** The first way a pattern matches *)

Lemma run_Seq_single (r1 r2 : regex) (st a : mstate) :
  run r1 st = [a] -> run (Seq r1 r2) st = run r2 a.
Proof. simpl; intros ->; simpl; apply app_nil_r. Qed.

Lemma run_Seq_hd (r1 r2 : regex) (st a b : mstate) (l l' : list mstate) :
  run r1 st = a :: l -> run r2 a = b :: l' ->
  run (Seq r1 r2) st = b :: l' ++ flat_map (run r2) l.
Proof. simpl; intros -> H; simpl; rewrite H; reflexivity. Qed.

Lemma run_Rep_greedy (lo : nat) (p : ascii -> bool) (st : mstate) :
  lo <= span p (rest st) ->
  run (Rep true lo p) st
  = advance (span p (rest st)) st
    :: map (fun k => advance k st) (rev (seq lo (span p (rest st) - lo))).
Proof.
  intros H; cbn [run]; rewrite rep_counts_greedy by exact H; reflexivity.
Qed.

Lemma run_Grp (n : nat) (r : regex) (st : mstate) :
  run (Grp n r) st
  = map (fun st' => set_group n (firstn (pos st' - pos st) (rest st)) st')
        (run r st).
Proof. reflexivity. Qed.

Lemma no_match (r : regex) (s : str) :
  (matches r s = true -> False) -> re_match r s = None.
Proof.
  intros H; apply matches_false_none.
  destruct (matches r s); [destruct H|]; reflexivity.
Qed.

Lemma heading_no (c : ascii) (t : str) :
  c <> "#" -> re_match Translator.heading (c :: t) = None.
Proof.
  intros Hc; apply no_match; intros H.
  apply heading_first in H as [t' [= -> _]]; congruence.
Qed.

Lemma change_type_no (c : ascii) (t : str) :
  c <> "[" -> re_match Translator.change_type (c :: t) = None.
Proof.
  intros Hc; apply no_match; intros H.
  apply change_type_first in H as [t' [= -> _]]; congruence.
Qed.

Lemma url_no (c : ascii) (t : str) :
  c <> "h" -> re_match Translator.url (c :: t) = None.
Proof.
  intros Hc; apply no_match; intros H.
  apply url_first in H as [t' [= -> _]]; congruence.
Qed.

Lemma local_issue_link_no (c : ascii) (t : str) :
  c <> "(" -> re_match Translator.local_issue_link (c :: t) = None.
Proof.
  intros Hc; apply no_match; intros H.
  apply local_issue_link_first in H as [t' [= -> _]]; congruence.
Qed.

(** The heading rule takes the [#] and the rest of the line, not the newline
    that ends it. *)
Lemma heading_match (line tail : str) :
  forallb dot line = true ->
  match tail with [] => True | c :: _ => dot c = false end ->
  re_match Translator.heading ("#" :: line ++ tail)
  = Some (RMatch ("#" :: line) []).
Proof.
  intros Hl Ht; unfold re_match, Translator.heading.
  rewrite (run_Seq_single _ _ _ (MState 0 ("#" :: line ++ tail) []))
    by reflexivity.
  rewrite (run_Seq_single _ _ _ (MState 1 (line ++ tail) [])) by reflexivity.
  rewrite run_Rep_greedy by (simpl; lia).
  simpl; rewrite span_all by assumption.
  rewrite firstn_length_app; reflexivity.
Qed.

(** ** Headings and the newline after them *)

Lemma translate_keeps_leading_newline (self : Renderer.t) (tail : str) :
  exists out, Translator.translate self (nl :: tail) = Some (nl :: out).
Proof.
  destruct (for_rules_progress self (nl :: tail))
    as (cb & m & k & E & Hk & Hg); [discriminate|].
  assert (Hne : nl :: tail <> []) by discriminate.
  rewrite (translate_step _ _ _ _ Hne E).
  destruct (translate_loop_total self
              (S (length (skipn (length (group m 0)) (nl :: tail))))
              (skipn (length (group m 0)) (nl :: tail)) [])
    as [out' Hout]; [lia|].
  unfold Translator.translate at 1; rewrite Hout; simpl option_map.
  assert (Hcb : exists cb', cb = nl :: cb');
    [|destruct Hcb as [cb' ->]; exists (cb' ++ out'); reflexivity].
  destruct (for_rules_inv _ _ _ _ _ E) as (key & _ & Hm & ->).
  destruct key; simpl in Hm |- *.
  - rewrite heading_no in Hm by discriminate; discriminate.
  - apply bullet_match_inv in Hm as (ws & c & t & Hs & Hws & Hc & ->).
    destruct ws as [|w ws]; simpl in Hs; injection Hs as <- _.
    + cbv in Hc; discriminate.
    + unfold Translator.parse_bullet, Renderer.bullet; simpl; eauto.
  - rewrite change_type_no in Hm by discriminate; discriminate.
  - rewrite url_no in Hm by discriminate; discriminate.
  - rewrite local_issue_link_no in Hm by discriminate; discriminate.
  - unfold Translator.parse_text, Renderer.text; rewrite Hg.
    destruct k; [lia | simpl; eauto].
Qed.

(** C8.  The heading rule's match ends in front of the newline that ends
    the heading line; whatever the renderer, the translation of a heading
    line followed by a newline is the rendered heading followed by that
    newline; with the no-heading sentinel, [# t], newline, [X] is translated
    to a newline and [X]. *)
Theorem heading_leaves_newline (self : Renderer.t) (line tail : str) :
  forallb dot line = true ->
  re_match Translator.heading ("#" :: line ++ nl :: tail)
  = Some (RMatch ("#" :: line) [])
  /\ (exists out,
        Translator.translate self ("#" :: line ++ nl :: tail)
        = Some (Renderer.heading self ("#" :: line) ++ nl :: out))
  /\ (forall local_repo,
        Translator.translate (Renderer.Make local_repo (Some NO_HEADING))
          (chars "# t" ++ nl :: chars "X")
        = Some (nl :: chars "X")).
Proof.
  intros Hl.
  assert (Hm := heading_match line (nl :: tail) Hl eq_refl).
  split; [exact Hm|]; split; [|intros; vm_compute; reflexivity].
  destruct (translate_keeps_leading_newline self tail) as [out Hout].
  exists out.
  rewrite (translate_step self _ (Renderer.heading self ("#" :: line))
             (RMatch ("#" :: line) [])); [|discriminate|].
  - change (group (RMatch ("#" :: line) []) 0) with ("#" :: line).
    change ("#" :: line ++ nl :: tail) with (("#" :: line) ++ nl :: tail).
    rewrite skipn_length_app, Hout; reflexivity.
  - unfold Translator.rules; rewrite for_rules_cons.
    unfold Translator.pattern; rewrite Hm; reflexivity.
Qed.

Lemma heading_leaves_newline_witness :
  forallb dot (chars " 1.2.0") = true
  /\ re_match Translator.heading
       ("#" :: chars " 1.2.0" ++ nl :: chars "- x")
     = Some (RMatch ("#" :: chars " 1.2.0") [])
  /\ (exists out,
        Translator.translate widgets
          ("#" :: chars " 1.2.0" ++ nl :: chars "- x")
        = Some (Renderer.heading widgets ("#" :: chars " 1.2.0")
                ++ nl :: out)).
Proof.
  split; [reflexivity|].
  destruct (heading_leaves_newline widgets (chars " 1.2.0") (chars "- x"))
    as (H1 & H2 & _); [reflexivity | split; assumption].
Defined.

(** ** Bullets *)

(** C10.  The bullet rule fires on whatever text is left that begins with
    optional whitespace (newlines included), a marker and a space, wherever
    in a line that text starts: after the issue reference of [(#1) - x] the
    marker in the middle of the line is rewritten. *)
Theorem bullet_not_only_at_line_start :
  (forall self ws c tail,
     forallb is_space ws = true -> is_marker c = true ->
     Translator.for_rules self Translator.rules (ws ++ c :: " " :: tail)
     = Some (ws ++ chars "* ", RMatch (ws ++ [c; " "]) [(1, ws)]))
  /\ (forall product,
        Translator.translate (Renderer.Make (chars "r") product)
          (chars "(#1) - x")
        = Some (chars "([#1](//github.com/r/issues/1)) * x")).
Proof.
  split; [|intros [p|]; vm_compute; reflexivity].
  intros self ws c tail Hws Hc.
  unfold Translator.rules; rewrite for_rules_cons.
  unfold Translator.pattern at 1.
  replace (re_match Translator.heading (ws ++ c :: " " :: tail)) with
    (@None rmatch).
  - rewrite for_rules_cons; unfold Translator.pattern at 1.
    rewrite bullet_match by assumption; reflexivity.
  - symmetry; destruct ws as [|w ws]; simpl in *; apply heading_no.
    + intros ->; cbv in Hc; discriminate.
    + intros ->; cbv in Hws; discriminate.
Qed.

Lemma bullet_not_only_at_line_start_witness :
  Translator.for_rules widgets Translator.rules
    (chars " - x")
  = Some (chars " * ", RMatch (chars " - ") [(1, chars " ")]).
Proof.
  apply (proj1 bullet_not_only_at_line_start widgets (chars " ") "-"
               (chars "x")); reflexivity.
Defined.

(** ** URLs *)

Lemma flat_map_nil {A B : Type} (f : A -> list B) (l : list A) :
  (forall x, In x l -> f x = []) -> flat_map f l = [].
Proof.
  induction l as [|x l IH]; simpl; intros H; [reflexivity|].
  rewrite (H x), IH; auto.
Qed.

(** A greedy repetition followed by [r2]: the counts above [j] on which
    [r2] fails are given up, one after the other. *)
Lemma run_Seq_Rep_greedy (lo : nat) (p : ascii -> bool) (r2 : regex)
      (st : mstate) (j : nat) :
  lo <= j <= span p (rest st) ->
  (forall k, j < k <= span p (rest st) -> run r2 (advance k st) = []) ->
  run (Seq (Rep true lo p) r2) st
  = run r2 (advance j st)
    ++ flat_map (run r2)
         (map (fun k => advance k st) (rev (seq lo (j - lo)))).
Proof.
  intros Hj Hfail; cbn [run]; unfold rep_counts.
  set (hi := span p (rest st)) in *.
  replace (S hi - lo) with ((j - lo) + (1 + (hi - j))) by lia.
  rewrite seq_app, rev_app_distr, map_app, flat_map_app.
  replace (lo + (j - lo)) with j by lia.
  rewrite seq_app, rev_app_distr, map_app, flat_map_app.
  rewrite (flat_map_nil (run r2)
             (map (fun k => advance k st) (rev (seq (j + 1) (hi - j))))).
  - simpl; rewrite app_nil_r; reflexivity.
  - intros x Hx; apply in_map_iff in Hx as (k & <- & Hk).
    apply in_rev, in_seq in Hk; apply Hfail; lia.
Qed.

Lemma url_last_body (c : ascii) :
  Translator.url_last c = true -> Translator.url_body c = true.
Proof.
  unfold Translator.url_last, Translator.url_body, one_of; cbn [existsb].
  intros H; apply negb_true_iff, orb_false_iff in H as [H1 H2].
  apply orb_false_iff in H1 as [H1 _].
  rewrite H1, H2; reflexivity.
Qed.

(** The url rule takes the whole of a text made of a scheme, characters
    that are neither whitespace nor [<], and a last character that may end a
    URL. *)
Lemma url_match (scheme body : str) (last : ascii) :
  scheme = chars "http://" \/ scheme = chars "https://" ->
  forallb Translator.url_body body = true -> body <> [] ->
  Translator.url_last last = true ->
  re_match Translator.url (scheme ++ body ++ [last])
  = Some (RMatch (scheme ++ body ++ [last])
                 [(1, scheme ++ body ++ [last])]).
Proof.
  intros Hs Hb Hne Hl.
  set (s := scheme ++ body ++ [last]).
  set (st := MState (length scheme) (body ++ [last]) []).
  assert (Hspan : span Translator.url_body (rest st) = length body + 1).
  { simpl; rewrite <- (app_nil_r (body ++ [last])), span_all;
      [rewrite length_app; reflexivity | | exact I].
    rewrite forallb_app, Hb; simpl; rewrite url_last_body; auto. }
  assert (Hy : run (Seq (Rep true 1 Translator.url_body)
                        (Cls Translator.url_last)) st
               = MState (length s) [] []
                 :: flat_map (run (Cls Translator.url_last))
                      (map (fun k => advance k st)
                           (rev (seq 1 (length body - 1))))).
  { rewrite (run_Seq_Rep_greedy _ _ _ _ (length body)).
    - cbn [run]; unfold advance at 1 2; simpl rest.
      rewrite skipn_length_app, Hl; unfold advance; simpl.
      unfold s; rewrite !length_app; simpl; rewrite Nat.add_assoc.
      reflexivity.
    - rewrite Hspan; destruct body; [congruence | simpl; lia].
    - rewrite Hspan; intros k Hk; replace k with (length (body ++ [last]))
        by (rewrite length_app; simpl; lia).
      cbn [run]; simpl rest; rewrite skipn_all; reflexivity. }
  assert (Hx : exists l,
             run (Seq (Lit (chars "http"))
                 (Seq (Opt (Lit (chars "s")))
                 (Seq (Lit (chars "://"))
                 (Seq (Rep true 1 Translator.url_body)
                      (Cls Translator.url_last)))))
                 (MState 0 s [])
             = MState (length s) [] [] :: l).
  { destruct Hs as [-> | ->].
    - rewrite (run_Seq_single _ _ _ (MState 4 (chars "://" ++ body ++ [last]) []))
        by reflexivity.
      rewrite (run_Seq_single _ _ _ (MState 4 (chars "://" ++ body ++ [last]) []))
        by reflexivity.
      rewrite (run_Seq_single _ _ _ st) by reflexivity.
      rewrite Hy; eauto.
    - rewrite (run_Seq_single _ _ _ (MState 4 (chars "s://" ++ body ++ [last]) []))
        by reflexivity.
      erewrite (run_Seq_hd _ _ _ (MState 5 (chars "://" ++ body ++ [last]) []));
        [eauto | reflexivity|].
      rewrite (run_Seq_single _ _ _ st) by reflexivity.
      exact Hy. }
  destruct Hx as [l Hx].
  unfold re_match, Translator.url.
  rewrite (run_Seq_single _ _ _ (MState 0 s [])) by reflexivity.
  rewrite run_Grp, Hx; simpl.
  rewrite Nat.sub_0_r, firstn_all; reflexivity.
Qed.

Lemma issue_url_pattern_http (tail : str) :
  re_match Renderer.issue_url_pattern (chars "http://" ++ tail) = None.
Proof.
  apply no_match; intros H; apply matches_inv in H as [st' H].
  unfold Renderer.issue_url_pattern in H.
  apply in_run_Seq in H as (m1 & H1 & H); run_inv H1.
  apply in_run_Seq in H as (m2 & H2 & H).
  apply in_run_Seq in H as (m3 & H3 & _).
  apply in_run_Grp in H3 as (m4 & H3 & _).
  apply in_run_Seq in H3 as (m5 & H3 & _).
  apply in_run_Opt in H2 as [H2 | ->]; run_inv H3; [run_inv H2|];
    discriminate.
Qed.

(** C9.  [Renderer.url] returns every string that begins with [http://]
    unchanged, the issue URLs of the tracker among them, while the url rule
    of the translator matches URLs of both schemes. *)
Theorem http_issue_urls_not_rewritten :
  (forall self tail,
     Renderer.url self (chars "http://" ++ tail) = chars "http://" ++ tail)
  /\ (forall self,
        Renderer.url self (chars "http://github.com/org/repo/issues/42")
        = chars "http://github.com/org/repo/issues/42"
        /\ Translator.translate self
             (chars "http://github.com/org/repo/issues/42")
           = Some (chars "http://github.com/org/repo/issues/42"))
  /\ (forall scheme body last,
        scheme = chars "http://" \/ scheme = chars "https://" ->
        forallb Translator.url_body body = true -> body <> [] ->
        Translator.url_last last = true ->
        re_match Translator.url (scheme ++ body ++ [last])
        = Some (RMatch (scheme ++ body ++ [last])
                       [(1, scheme ++ body ++ [last])])).
Proof.
  split; [|split].
  - intros self tail; unfold Renderer.url.
    rewrite issue_url_pattern_http; reflexivity.
  - intros self; split; vm_compute; reflexivity.
  - apply url_match.
Qed.

Lemma http_issue_urls_not_rewritten_witness :
  re_match Translator.url (chars "http://github.com/org/repo/issues/42")
  = Some (RMatch (chars "http://github.com/org/repo/issues/42")
                 [(1, chars "http://github.com/org/repo/issues/42")])
  /\ re_match Translator.url (chars "https://github.com/org/repo/issues/42")
     = Some (RMatch (chars "https://github.com/org/repo/issues/42")
                    [(1, chars "https://github.com/org/repo/issues/42")]).
Proof.
  destruct http_issue_urls_not_rewritten as (_ & _ & H); split.
  - apply (H (chars "http://") (chars "github.com/org/repo/issues/4") "2");
      [left; reflexivity | reflexivity | discriminate | reflexivity].
  - apply (H (chars "https://") (chars "github.com/org/repo/issues/4") "2");
      [right; reflexivity | reflexivity | discriminate | reflexivity].
Defined.

(** ** The local repository *)

Lemma local_repo_parse (url : str) (st' : mstate) :
  In st' (run local_repo_pattern (MState 0 url [])) ->
  exists repo, accepted_remote url repo /\ caps st' = [(1, repo)].
Proof.
  unfold local_repo_pattern; intros H.
  apply in_run_Seq in H as (m1 & H1 & H); run_inv H1.
  apply in_run_Seq in H as (m2 & H2 & H).
  apply in_run_Seq in H as (m3 & H3 & H).
  apply in_run_Seq in H as (m4 & H4 & H).
  assert (Hp : exists prefix t,
             (prefix = ssh_prefix \/ prefix = https_prefix)
             /\ url = prefix ++ t
             /\ m2 = MState (length prefix) t []).
  { run_inv H2.
    - exists ssh_prefix, t; repeat split; auto.
    - exists https_prefix, t; repeat split; auto. }
  destruct Hp as (prefix & t & Hp & -> & ->).
  apply in_run_Grp in H3 as (m3' & H3 & ->).
  apply in_run_Rep in H3 as (k & Hk & ->); simpl in Hk.
  apply in_run_Lit in H4 as [[t4 Ht4] ->].
  cbn [rest advance set_group] in Ht4.
  apply in_run_Eos in H as [Hend ->]; simpl in Hend.
  rewrite Ht4 in Hend; simpl in Hend.
  exists (firstn k t); split; [split|].
  - apply span_firstn; lia.
  - exists prefix, t4; repeat split; auto.
    rewrite <- Ht4, firstn_skipn; reflexivity.
  - simpl; replace (length prefix + k - length prefix) with k by lia.
    reflexivity.
Qed.

Lemma local_repo_in (prefix repo tail : str) :
  prefix = ssh_prefix \/ prefix = https_prefix ->
  tail = [] \/ tail = [nl] ->
  forallb dot repo = true ->
  exists st',
    In st' (run local_repo_pattern
                (MState 0 (prefix ++ repo ++ chars ".git" ++ tail) [])).
Proof.
  intros Hp Ht Hr.
  set (after := repo ++ chars ".git" ++ tail).
  set (m2 := MState (length prefix) after []).
  set (m3 := set_group 1 repo (advance (length repo) m2)).
  exists (advance 4 m3); unfold local_repo_pattern.
  apply in_run_Seq; eexists; split; [apply in_run_Bos; split; reflexivity|].
  apply in_run_Seq; exists m2; split.
  { apply in_run_Alt; destruct Hp as [-> | ->]; [left | right];
      (apply in_run_Lit; split; [exists after; reflexivity | reflexivity]). }
  apply in_run_Seq; exists m3; split.
  { apply in_run_Grp; exists (advance (length repo) m2); split.
    - apply in_run_Rep; exists (length repo); split; [|reflexivity].
      split; [lia|]; simpl rest; unfold after.
      apply span_prefix; exact Hr.
    - unfold m3; f_equal; simpl.
      replace (length prefix + length repo - length prefix)
        with (length repo) by lia.
      unfold after; rewrite firstn_length_app; reflexivity. }
  apply in_run_Seq; exists (advance 4 m3); split.
  - apply in_run_Lit; split; [|reflexivity].
    exists tail; simpl; unfold after; rewrite skipn_length_app; reflexivity.
  - apply in_run_Eos; split; [|reflexivity].
    simpl; unfold after; rewrite skipn_length_app.
    destruct Ht as [-> | ->]; auto.
Qed.

Lemma accepted_remote_unique (url repo repo' : str) :
  accepted_remote url repo -> accepted_remote url repo' -> repo = repo'.
Proof.
  intros (_ & p & t & Hp & Ht & E) (_ & p' & t' & Hp' & Ht' & E').
  rewrite E in E'; clear E.
  assert (p = p').
  { destruct Hp as [-> | ->], Hp' as [-> | ->]; auto; discriminate. }
  subst p'; apply app_inv_head in E'.
  destruct Ht as [-> | ->], Ht' as [-> | ->].
  - exact (app_inv_tail _ _ _ E').
  - exfalso.
    change (repo ++ chars ".git" ++ [])
      with (repo ++ chars ".gi" ++ ["t"]) in E'.
    rewrite !app_assoc in E'.
    apply app_inj_tail in E' as [_ E']; discriminate.
  - exfalso.
    change (repo' ++ chars ".git" ++ [])
      with (repo' ++ chars ".gi" ++ ["t"]) in E'.
    rewrite !app_assoc in E'.
    apply app_inj_tail in E' as [_ E']; discriminate.
  - exact (app_inv_tail _ _ _ E').
Qed.

(** C7, as the code behaves.  [find_local_repo] returns [repo] exactly on
    the remote URLs made of the SSH or the HTTPS prefix, a [repo] without
    newline, [.git], and then nothing or the one newline that ends the
    output of [git config]; on every other string it raises [LookupError]. *)
Theorem find_local_repo_accepts (url : str) :
  (forall repo, find_local_repo url = inl repo <-> accepted_remote url repo)
  /\ ((forall repo, ~ accepted_remote url repo)
      <-> find_local_repo url
          = inr (LookupError
                   (chars "Can't figure local repo from remote URL " ++ url))).
Proof.
  unfold find_local_repo.
  destruct (re_match local_repo_pattern url) as [m|] eqn:E.
  - apply re_match_some in E as (st' & Hin & ->).
    apply local_repo_parse in Hin as (repo0 & Hacc & Hcaps).
    unfold group; simpl subgroups; rewrite Hcaps; simpl assoc_nat.
    split; [intros repo; split|split].
    + intros [= <-]; exact Hacc.
    + intros H; f_equal; exact (accepted_remote_unique _ _ _ Hacc H).
    + intros H; destruct (H _ Hacc).
    + discriminate.
  - assert (Hno : forall repo, ~ accepted_remote url repo).
    { intros repo (Hr & prefix & tail & Hp & Ht & ->).
      destruct (local_repo_in prefix repo tail Hp Ht Hr) as [st' Hin].
      apply matches_in in Hin; unfold matches in Hin.
      rewrite E in Hin; discriminate. }
    split; [intros repo; split|split]; auto;
      [discriminate | intros H; destruct (Hno _ H)].
Qed.

Lemma find_local_repo_accepts_witness :
  accepted_remote
    (chars "git@github.com:firebase/firebase-ios-sdk.git" ++ [nl])
    (chars "firebase/firebase-ios-sdk")
  /\ find_local_repo
       (chars "git@github.com:firebase/firebase-ios-sdk.git" ++ [nl])
     = inl (chars "firebase/firebase-ios-sdk").
Proof.
  assert (H : accepted_remote
                (chars "git@github.com:firebase/firebase-ios-sdk.git" ++ [nl])
                (chars "firebase/firebase-ios-sdk")).
  { split; [reflexivity|].
    exists ssh_prefix, [nl]; repeat split; auto. }
  split; [exact H|].
  apply (proj1 (find_local_repo_accepts _)); exact H.
Defined.

(** C7, as stated, fails: what [git config] prints ends with a newline, so
    it has neither shape read literally, and [find_local_repo] returns the
    repository; and a string of the SSH shape whose middle part spans two
    lines raises. *)
Lemma find_local_repo_newline :
  (forall repo,
     ~ remote_shape (chars "git@github.com:org/repo.git" ++ [nl]) repo)
  /\ find_local_repo (chars "git@github.com:org/repo.git" ++ [nl])
     = inl (chars "org/repo")
  /\ remote_shape (chars "git@github.com:a" ++ nl :: chars "b.git")
                  (chars "a" ++ nl :: chars "b")
  /\ find_local_repo (chars "git@github.com:a" ++ nl :: chars "b.git")
     = inr (LookupError
              (chars "Can't figure local repo from remote URL "
               ++ chars "git@github.com:a" ++ nl :: chars "b.git")).
Proof.
  split; [|split; [vm_compute; reflexivity|split;
                   [left; reflexivity | vm_compute; reflexivity]]].
  intros repo [E | E];
    change (chars ".git") with (chars ".gi" ++ ["t"]) in E;
    rewrite !app_assoc in E; apply app_inj_tail in E as [_ E];
    discriminate.
Qed.

(** ** Issue URLs *)

Lemma in_Lit_str (l : str) (st st' : mstate) :
  In st' (run (Lit l) st) ->
  rest st = l ++ rest st' /\ pos st' = pos st + length l
  /\ caps st' = caps st.
Proof.
  intros H; apply in_run_Lit in H as [[t Ht] ->]; simpl.
  rewrite Ht, skipn_length_app; auto.
Qed.

Lemma in_Cls_str (p : ascii -> bool) (st st' : mstate) :
  In st' (run (Cls p) st) ->
  exists c, p c = true /\ rest st = c :: rest st'
            /\ pos st' = pos st + 1 /\ caps st' = caps st.
Proof.
  intros H; apply in_run_Cls in H as [(c & t & Ht & Hc) ->]; simpl.
  exists c; rewrite Ht; auto.
Qed.

Lemma in_Rep_str (g : bool) (lo : nat) (p : ascii -> bool) (st st' : mstate) :
  In st' (run (Rep g lo p) st) ->
  exists w, forallb p w = true /\ lo <= length w
            /\ rest st = w ++ rest st'
            /\ pos st' = pos st + length w /\ caps st' = caps st.
Proof.
  intros H; apply in_run_Rep in H as (k & Hk & ->); simpl.
  pose proof (span_le p (rest st)).
  exists (firstn k (rest st)); rewrite length_firstn_le by lia.
  repeat split; try lia; [apply span_firstn; lia|].
  symmetry; apply firstn_skipn.
Qed.

Lemma in_Grp_Rep_str (n : nat) (g : bool) (lo : nat) (p : ascii -> bool)
      (st st' : mstate) :
  In st' (run (Grp n (Rep g lo p)) st) ->
  exists w, forallb p w = true /\ lo <= length w
            /\ rest st = w ++ rest st'
            /\ pos st' = pos st + length w /\ caps st' = (n, w) :: caps st.
Proof.
  intros H; apply in_run_Grp in H as (st1 & H & ->).
  apply in_Rep_str in H as (w & Hw & Hlo & Hr & Hp & Hc).
  exists w; simpl; rewrite Hp, Hc, Hr.
  replace (pos st + length w - pos st) with (length w) by lia.
  rewrite firstn_length_app; auto.
Qed.

Lemma forallb_rev {A : Type} (p : A -> bool) (l : list A) :
  forallb p (rev l) = forallb p l.
Proof.
  induction l as [|x l IH]; simpl; [reflexivity|].
  rewrite forallb_app, IH; simpl; rewrite andb_true_r; apply andb_comm.
Qed.

Lemma app_inv_length {A : Type} (l1 l2 t1 t2 : list A) :
  l1 ++ t1 = l2 ++ t2 -> length l1 = length l2 -> l1 = l2 /\ t1 = t2.
Proof.
  revert l2; induction l1 as [|x l1 IH]; intros [|y l2]; simpl;
    try discriminate; auto.
  intros [= -> E] [= L]; destruct (IH _ E L) as [-> ->]; auto.
Qed.

Lemma app_last_inj (p q a b : str) (x y : ascii) :
  p ++ a ++ [x] = q ++ b ++ [y] -> x = y.
Proof.
  rewrite !app_assoc; intros H; apply app_inj_tail in H as [_ H]; exact H.
Qed.

(** A text that ends with [/issues/] and digits is cut in one way only. *)
Lemma issues_suffix_unique (repo issue repo' issue' : str) :
  forallb is_digit issue = true -> forallb is_digit issue' = true ->
  repo ++ chars "/issues/" ++ issue = repo' ++ chars "/issues/" ++ issue' ->
  repo = repo' /\ issue = issue'.
Proof.
  intros Hd Hd' E.
  apply (f_equal (@rev ascii)) in E.
  rewrite !rev_app_distr, <- !app_assoc in E; simpl in E.
  assert (L : length (rev issue) = length (rev issue')).
  { rewrite <- (span_all is_digit (rev issue) ("/" :: chars "seussi/" ++ rev repo)),
            <- (span_all is_digit (rev issue') ("/" :: chars "seussi/" ++ rev repo'));
      try reflexivity; try (rewrite forallb_rev; assumption).
    simpl; simpl in E; rewrite E; reflexivity. }
  destruct (app_inv_length _ _ _ _ E L) as [Hi Hr].
  apply (f_equal (@rev ascii)) in Hi; rewrite !rev_involutive in Hi.
  simpl in Hr; injection Hr as Hr.
  apply (f_equal (@rev ascii)) in Hr; rewrite !rev_involutive in Hr.
  auto.
Qed.

(** What [Renderer.url] recognises: an optional [https:], [//github], any
    character but a newline, [com/], a repository on one line, [/issues/],
    digits, and then the end of the string or a last newline. *)
Lemma issue_url_parse (url : str) (st' : mstate) :
  In st' (run Renderer.issue_url_pattern (MState 0 url [])) ->
  exists scheme c repo issue tail,
    (scheme = [] \/ scheme = chars "https:")
    /\ dot c = true /\ forallb dot repo = true
    /\ forallb is_digit issue = true /\ issue <> []
    /\ (tail = [] \/ tail = [nl])
    /\ url = scheme ++ chars "//github" ++ c :: chars "com/" ++ repo
             ++ chars "/issues/" ++ issue ++ tail
    /\ caps st' = [ (1, chars "//github" ++ c :: chars "com/" ++ repo
                        ++ chars "/issues/" ++ issue);
                    (3, issue); (2, repo) ]
    /\ pos st' = length url - length tail.
Proof.
  unfold Renderer.issue_url_pattern; intros H.
  apply in_run_Seq in H as (m0 & H0 & H).
  apply in_run_Bos in H0 as [_ ->].
  apply in_run_Seq in H as (m1 & H1 & H).
  apply in_run_Seq in H as (m2 & H2 & H).
  assert (Hs : exists scheme,
             (scheme = [] \/ scheme = chars "https:")
             /\ url = scheme ++ rest m1 /\ caps m1 = []
             /\ pos m1 = length scheme).
  { apply in_run_Opt in H1 as [H1 | ->].
    - apply in_Lit_str in H1 as (Hr & Hp & Hc).
      exists (chars "https:"); auto.
    - exists []; auto. }
  destruct Hs as (scheme & Hscheme & Hurl & Hc1 & Hp1); clear H1.
  apply in_run_Grp in H2 as (st1 & H2 & ->).
  apply in_run_Seq in H2 as (a1 & Ha1 & H2).
  apply in_run_Seq in H2 as (a2 & Ha2 & H2).
  apply in_run_Seq in H2 as (a3 & Ha3 & H2).
  apply in_run_Seq in H2 as (a4 & Ha4 & H2).
  apply in_run_Seq in H2 as (a5 & Ha5 & H2).
  apply in_Lit_str in Ha1 as (R1 & P1 & C1).
  apply in_Cls_str in Ha2 as (c & Hc & R2 & P2 & C2).
  apply in_Lit_str in Ha3 as (R3 & P3 & C3).
  apply in_Grp_Rep_str in Ha4 as (repo & Hrepo & _ & R4 & P4 & C4).
  apply in_Lit_str in Ha5 as (R5 & P5 & C5).
  apply in_Grp_Rep_str in H2 as (issue & Hissue & Hlen & R6 & P6 & C6).
  apply in_run_Eos in H as [Hend ->]; simpl in Hend.
  set (link := chars "//github" ++ c :: chars "com/" ++ repo
               ++ chars "/issues/" ++ issue).
  assert (Hrest : rest m1 = link ++ rest st1).
  { unfold link; rewrite R1, R2, R3, R4, R5, R6, <- !app_assoc; simpl.
    rewrite <- !app_assoc; reflexivity. }
  assert (Hpos : pos st1 - pos m1 = length link).
  { unfold link; rewrite !length_app; simpl; rewrite !length_app; simpl.
    simpl in P1, P3, P5; lia. }
  exists scheme, c, repo, issue, (rest st1).
  repeat split; auto.
  - destruct issue; [simpl in Hlen; lia | discriminate].
  - rewrite Hurl, Hrest; unfold link.
    rewrite <- !app_assoc; simpl; rewrite <- !app_assoc; reflexivity.
  - simpl; rewrite Hpos, Hrest, firstn_length_app.
    rewrite C6, C5, C4, C3, C2, C1, Hc1; reflexivity.
  - simpl; rewrite Hurl, Hrest, !length_app; lia.
Qed.

Lemma in_Lit_intro (l t : str) (st : mstate) :
  rest st = l ++ t ->
  In (MState (pos st + length l) t (caps st)) (run (Lit l) st).
Proof.
  intros H; apply in_run_Lit; split; [exists t; exact H|].
  unfold advance; rewrite H, skipn_length_app; reflexivity.
Qed.

Lemma in_Cls_intro (p : ascii -> bool) (c : ascii) (t : str) (st : mstate) :
  rest st = c :: t -> p c = true ->
  In (MState (pos st + 1) t (caps st)) (run (Cls p) st).
Proof.
  intros H Hc; apply in_run_Cls; split; [exists c, t; auto|].
  unfold advance; rewrite H; reflexivity.
Qed.

Lemma in_Grp_Rep_intro (n : nat) (g : bool) (lo : nat) (p : ascii -> bool)
      (w t : str) (st : mstate) :
  rest st = w ++ t -> forallb p w = true -> lo <= length w ->
  In (MState (pos st + length w) t ((n, w) :: caps st))
     (run (Grp n (Rep g lo p)) st).
Proof.
  intros H Hw Hlo; apply in_run_Grp; exists (advance (length w) st); split.
  - apply in_run_Rep; exists (length w); split; [|reflexivity].
    split; [exact Hlo|]; rewrite H; apply span_prefix; exact Hw.
  - unfold set_group, advance; simpl; rewrite H.
    replace (pos st + length w - pos st) with (length w) by lia.
    rewrite skipn_length_app, firstn_length_app; reflexivity.
Qed.

Lemma digit_not_nl (c : ascii) : is_digit c = true -> c <> nl.
Proof. intros H ->; cbv in H; discriminate. Qed.

(** The pattern of [Renderer.url] on an https issue URL; the character
    between [github] and [com] is whatever the pattern's dot accepts. *)
Lemma issue_url_match (c : ascii) (repo issue : str) :
  dot c = true -> forallb dot repo = true ->
  forallb is_digit issue = true -> issue <> [] ->
  let link := chars "//github" ++ c :: chars "com/" ++ repo
              ++ chars "/issues/" ++ issue in
  re_match Renderer.issue_url_pattern (chars "https:" ++ link)
  = Some (RMatch (chars "https:" ++ link)
                 [(1, link); (3, issue); (2, repo)]).
Proof.
  intros Hc Hrepo Hissue Hne link.
  set (url := chars "https:" ++ link).
  set (st := MState (length url) [] [(1, link); (3, issue); (2, repo)]).
  assert (Hin : In st (run Renderer.issue_url_pattern (MState 0 url []))).
  { unfold Renderer.issue_url_pattern.
    apply in_run_Seq; eexists; split; [apply in_run_Bos; split; reflexivity|].
    apply in_run_Seq; exists (MState 6 link []); split.
    { apply in_run_Opt; left.
      apply (in_Lit_intro (chars "https:") link (MState 0 url [])).
      reflexivity. }
    apply in_run_Seq; exists st; split;
      [|apply in_run_Eos; split; [left|]; reflexivity].
    apply in_run_Grp.
    exists (MState (length url) [] [(3, issue); (2, repo)]); split.
    - apply in_run_Seq; eexists; split.
      { apply (in_Lit_intro (chars "//github")
                 (c :: chars "com/" ++ repo ++ chars "/issues/" ++ issue)).
        reflexivity. }
      apply in_run_Seq; eexists; split.
      { apply (in_Cls_intro dot c
                 (chars "com/" ++ repo ++ chars "/issues/" ++ issue));
          [reflexivity | exact Hc]. }
      apply in_run_Seq; eexists; split.
      { apply (in_Lit_intro (chars "com/")
                 (repo ++ chars "/issues/" ++ issue)); reflexivity. }
      apply in_run_Seq; eexists; split.
      { apply (in_Grp_Rep_intro 2 true 0 dot repo (chars "/issues/" ++ issue));
          [reflexivity | exact Hrepo | lia]. }
      apply in_run_Seq; eexists; split.
      { apply (in_Lit_intro (chars "/issues/") issue); reflexivity. }
      replace (MState (length url) [] [(3, issue); (2, repo)])
        with (MState (19 + length repo + 8 + length issue) []
                     [(3, issue); (2, repo)]).
      + apply (in_Grp_Rep_intro 3 true 1 is_digit issue []
                 (MState (19 + length repo + 8) issue [(2, repo)]));
          [simpl; rewrite app_nil_r; reflexivity | exact Hissue|].
        destruct issue; [congruence | simpl; lia].
      + f_equal; unfold url, link; rewrite !length_app; cbn [length].
        rewrite !length_app; simpl; lia.
    - unfold st, set_group; cbn [pos rest caps].
      replace (length url - 6) with (length link)
        by (unfold url; rewrite length_app; simpl; lia).
      rewrite firstn_all; reflexivity. }
  rewrite (re_match_unique _ _ _ Hin).
  - unfold st; cbn [pos caps]; rewrite firstn_all; reflexivity.
  - intros st' H; apply issue_url_parse in H
      as (scheme' & c' & repo' & issue' & tail' & Hs & _ & _ & Hi' & _
          & Ht & E & -> & ->).
    unfold url, link in E.
    destruct Hs as [-> | ->]; [discriminate|].
    simpl in E; injection E as <- E.
    assert (Htail : tail' = []).
    { destruct Ht as [-> | ->]; [reflexivity | exfalso].
      destruct (exists_last Hne) as (issue0 & d & Hd).
      rewrite Hd in E.
      apply (app_last_inj repo repo' (chars "/issues/" ++ issue0)
                          (chars "/issues/" ++ issue')) in E.
      rewrite Hd, forallb_app in Hissue; simpl in Hissue.
      apply andb_true_iff in Hissue as [_ Hissue].
      rewrite andb_true_r in Hissue.
      apply digit_not_nl in Hissue; congruence. }
    subst tail'; rewrite app_nil_r in E.
    apply (issues_suffix_unique repo issue repo' issue') in E as [<- <-];
      auto.
Qed.

Lemma bullet_no (c : ascii) (t : str) :
  is_space c = false -> is_marker c = false ->
  re_match Translator.bullet (c :: t) = None.
Proof.
  intros Hs Hm; destruct (re_match Translator.bullet (c :: t)) as [m|] eqn:E;
    [exfalso | reflexivity].
  apply bullet_match_inv in E as (ws & c' & tail & E & Hws & Hc & _).
  destruct ws as [|w ws]; simpl in E, Hws; injection E as <- _.
  - congruence.
  - apply andb_true_iff in Hws as [Hw _]; congruence.
Qed.

(** A text that is one URL is translated to what [Renderer.url] makes of
    it. *)
Lemma translate_one_url (self : Renderer.t) (scheme body : str) (last : ascii) :
  scheme = chars "http://" \/ scheme = chars "https://" ->
  forallb Translator.url_body body = true -> body <> [] ->
  Translator.url_last last = true ->
  Translator.translate self (scheme ++ body ++ [last])
  = Some (Renderer.url self (scheme ++ body ++ [last])).
Proof.
  intros Hs Hb Hne Hl.
  pose proof (url_match scheme body last Hs Hb Hne Hl) as Hm.
  set (u := scheme ++ body ++ [last]) in *.
  assert (Hu : exists t, u = "h" :: t)
    by (destruct Hs as [-> | ->]; eexists; reflexivity).
  destruct Hu as [t Hu].
  assert (Hfor : Translator.for_rules self Translator.rules u
                 = Some (Renderer.url self u, RMatch u [(1, u)])).
  { unfold Translator.rules.
    rewrite for_rules_cons; unfold Translator.pattern at 1.
    rewrite Hu at 1; rewrite heading_no by discriminate.
    rewrite for_rules_cons; unfold Translator.pattern at 1.
    rewrite Hu at 1; rewrite bullet_no by reflexivity.
    rewrite for_rules_cons; unfold Translator.pattern at 1.
    rewrite Hu at 1; rewrite change_type_no by discriminate.
    rewrite for_rules_cons; unfold Translator.pattern at 1.
    rewrite Hm; reflexivity. }
  rewrite (translate_step self u _ _ ltac:(rewrite Hu; discriminate) Hfor).
  change (group (RMatch u [(1, u)]) 0) with u.
  rewrite skipn_all; simpl; rewrite app_nil_r; reflexivity.
Qed.

Lemma url_body_dot (c : ascii) : Translator.url_body c = true -> dot c = true.
Proof.
  unfold dot, is_nl; destruct (Ascii.eqb_spec c nl) as [-> | _];
    [discriminate | reflexivity].
Qed.

Lemma digit_url_last (c : ascii) :
  is_digit c = true -> Translator.url_last c = true.
Proof.
  destruct c as [[] [] [] [] [] [] [] []]; cbv; congruence.
Qed.

Lemma forallb_impl {A : Type} (p q : A -> bool) (l : list A) :
  (forall x, p x = true -> q x = true) ->
  forallb p l = true -> forallb q l = true.
Proof.
  intros H; induction l as [|x l IH]; simpl; [reflexivity|].
  rewrite !andb_true_iff; intros [Hx Hl]; auto.
Qed.

(** An https URL with [github], one character, [com/], a repository,
    [/issues/] and a number is rewritten to a link; the text of the link is
    the number alone for the local repository. *)
Lemma translate_issue_url_any (self : Renderer.t) (c : ascii)
      (repo issue : str) :
  Translator.url_body c = true ->
  forallb Translator.url_body repo = true ->
  forallb is_digit issue = true -> issue <> [] ->
  let link := chars "//github" ++ c :: chars "com/" ++ repo
              ++ chars "/issues/" ++ issue in
  Translator.translate self (chars "https:" ++ link)
  = Some (chars "["
          ++ (if str_eqb repo (Renderer.local_repo self)
              then chars "#" ++ issue else repo ++ chars "#" ++ issue)
          ++ chars "](" ++ link ++ chars ")").
Proof.
  intros Hc Hrepo Hissue Hne link.
  destruct (exists_last Hne) as (issue0 & d & Hd).
  assert (Hdigits := Hissue).
  rewrite Hd, forallb_app in Hissue; simpl in Hissue.
  apply andb_true_iff in Hissue as [Hi0 Hdl]; rewrite andb_true_r in Hdl.
  set (body := chars "github" ++ c :: chars "com/" ++ repo
               ++ chars "/issues/" ++ issue0).
  assert (E : chars "https:" ++ link = chars "https://" ++ body ++ [d]).
  { unfold link, body; rewrite Hd; simpl; rewrite <- !app_assoc.
    reflexivity. }
  rewrite E, translate_one_url; auto using digit_url_last.
  - rewrite <- E; unfold Renderer.url, link.
    rewrite (issue_url_match c repo issue (url_body_dot _ Hc)
               (forallb_impl _ _ _ url_body_dot Hrepo) Hdigits Hne).
    reflexivity.
  - unfold body; simpl; rewrite Hc, forallb_app, Hrepo; simpl.
    apply (forallb_impl is_digit); [|exact Hi0].
    intros x Hx; apply url_last_body, digit_url_last; exact Hx.
  - unfold body; discriminate.
Qed.

(** X19.  The issue URLs of the tracker itself, local and foreign: a text
    that is [https://github.com/], a repository, [/issues/] and a number is
    translated to a link without the scheme, whose text is [#] and the
    number for the local repository, and the repository, [#] and the number
    for another one. *)
Lemma translate_issue_url (self : Renderer.t) (repo issue : str) :
  forallb Translator.url_body repo = true ->
  forallb is_digit issue = true -> issue <> [] ->
  Translator.translate self (issue_url repo issue)
  = Some (issue_link
            (if str_eqb repo (Renderer.local_repo self)
             then chars "#" ++ issue else repo ++ chars "#" ++ issue)
            repo issue).
Proof.
  intros Hrepo Hissue Hne; unfold issue_url, issue_link.
  pose proof (translate_issue_url_any self "." repo issue eq_refl
                Hrepo Hissue Hne) as H; cbv zeta in H.
  change (chars "https://github.com/" ++ repo ++ chars "/issues/" ++ issue)
    with (chars "https:" ++ chars "//github" ++ "." :: chars "com/" ++ repo
          ++ chars "/issues/" ++ issue).
  rewrite H; f_equal; f_equal; f_equal.
  simpl; rewrite <- !app_assoc; reflexivity.
Qed.

Lemma translate_issue_url_witness :
  forallb Translator.url_body (chars "other/repo") = true
  /\ Translator.translate (Renderer.Make (chars "org/repo") None)
       (issue_url (chars "other/repo") (chars "42"))
     = Some (issue_link (chars "other/repo#42") (chars "other/repo")
               (chars "42")).
Proof.
  split; [reflexivity|].
  rewrite (translate_issue_url (Renderer.Make (chars "org/repo") None)
             (chars "other/repo") (chars "42"));
    [reflexivity | reflexivity | reflexivity | discriminate].
Defined.

(** X20.  The strings [Renderer.url] rewrites: nothing but the ones its
    pattern describes.  A URL that is returned changed is, after an
    optional [https:], [//github], one character that is not a newline,
    [com/], a repository, [/issues/] and a number, possibly followed by one
    newline; every other string, an [http:] URL for one, is returned as it
    is. *)
Lemma url_rewritten_shape (self : Renderer.t) (url : str) :
  Renderer.url self url <> url ->
  exists scheme c repo issue tail,
    (scheme = [] \/ scheme = chars "https:")
    /\ dot c = true /\ forallb dot repo = true
    /\ forallb is_digit issue = true /\ issue <> []
    /\ (tail = [] \/ tail = [nl])
    /\ url = scheme ++ chars "//github" ++ c :: chars "com/" ++ repo
             ++ chars "/issues/" ++ issue ++ tail.
Proof.
  unfold Renderer.url.
  destruct (re_match Renderer.issue_url_pattern url) as [m|] eqn:E;
    [intros _ | congruence].
  apply re_match_some in E as (st' & Hin & _).
  apply issue_url_parse in Hin
    as (scheme & c & repo & issue & tail & H1 & H2 & H3 & H4 & H5 & H6 & H7 & _).
  exists scheme, c, repo, issue, tail; repeat split; auto.
Qed.

Lemma url_rewritten_shape_witness :
  Renderer.url (Renderer.Make (chars "o/r") None)
    (chars "https://github.com/o/r/issues/1")
  <> chars "https://github.com/o/r/issues/1"
  /\ exists scheme c repo issue tail,
       (scheme = [] \/ scheme = chars "https:")
       /\ dot c = true /\ forallb dot repo = true
       /\ forallb is_digit issue = true /\ issue <> []
       /\ (tail = [] \/ tail = [nl])
       /\ chars "https://github.com/o/r/issues/1"
          = scheme ++ chars "//github" ++ c :: chars "com/" ++ repo
            ++ chars "/issues/" ++ issue ++ tail.
Proof.
  assert (H : Renderer.url (Renderer.Make (chars "o/r") None)
                (chars "https://github.com/o/r/issues/1")
              <> chars "https://github.com/o/r/issues/1")
    by (vm_compute; discriminate).
  split; [exact H|].
  exact (url_rewritten_shape _ _ H).
Defined.

(** C5.  With local repository [org/repo], the issue URL of [org/repo] is
    translated to a link with text [#42] and the one of [other/repo] to a
    link with text [other/repo#42]; but a URL whose host is not the
    tracker's, [githubXcom], is rewritten as well, where the claim has it
    pass through: the dot of [github.com] in the pattern of [Renderer.url]
    is not escaped, as it is in the pattern of [find_local_repo]. *)
Theorem issue_url_unescaped_dot (product : option str) :
  let self := Renderer.Make (chars "org/repo") product in
  Translator.translate self (chars "https://github.com/org/repo/issues/42")
  = Some (chars "[#42](//github.com/org/repo/issues/42)")
  /\ Translator.translate self
       (chars "https://github.com/other/repo/issues/42")
     = Some (chars "[other/repo#42](//github.com/other/repo/issues/42)")
  /\ Translator.translate self
       (chars "https://githubXcom/org/repo/issues/42")
     = Some (chars "[#42](//githubXcom/org/repo/issues/42)")
  /\ Renderer.url self (chars "https://githubXcom/org/repo/issues/42")
     = chars "[#42](//githubXcom/org/repo/issues/42)".
Proof.
  destruct product; repeat split; vm_compute; reflexivity.
Qed.

(** * Further properties *)

(** ** The fallback rule, exactly *)

(** A lazy repetition followed by [r2]: the counts below [j] on which [r2]
    fails are passed over, one after the other. *)
Lemma run_Seq_Rep_lazy (lo : nat) (p : ascii -> bool) (r2 : regex)
      (st : mstate) (j : nat) :
  lo <= j <= span p (rest st) ->
  (forall k, lo <= k < j -> run r2 (advance k st) = []) ->
  run (Seq (Rep false lo p) r2) st
  = run r2 (advance j st)
    ++ flat_map (run r2)
         (map (fun k => advance k st) (seq (S j) (span p (rest st) - j))).
Proof.
  intros Hj Hfail; cbn [run]; unfold rep_counts.
  set (hi := span p (rest st)) in *.
  replace (S hi - lo) with ((j - lo) + (1 + (hi - j))) by lia.
  rewrite seq_app, map_app, flat_map_app.
  replace (lo + (j - lo)) with j by lia.
  rewrite (flat_map_nil (run r2)
             (map (fun k => advance k st) (seq lo (j - lo)))).
  - simpl; reflexivity.
  - intros x Hx; apply in_map_iff in Hx as (k & <- & Hk).
    apply in_seq in Hk; apply Hfail; lia.
Qed.

Lemma lookahead_stop (st x : mstate) :
  In x (run text_lookahead st) -> text_stop (rest st) = true.
Proof.
  unfold text_lookahead; intros H; run_inv H.
  - rewrite Hcls; unfold text_stop; rewrite Hc; reflexivity.
  - rewrite Hlit in Hlit0, Hlit1 |- *; simpl in Hlit0, Hlit1; subst.
    reflexivity.
  - rewrite Hlit in Hlit0 |- *; simpl in Hlit0; subst; reflexivity.
  - destruct Heos as [-> | ->]; reflexivity.
Qed.

Lemma stop_lookahead (st : mstate) :
  text_stop (rest st) = true -> run text_lookahead st <> [].
Proof.
  intros H.
  assert (Hin : exists x, In x (run text_lookahead st));
    [|destruct Hin as [x Hx]; intros E; rewrite E in Hx; exact Hx].
  unfold text_lookahead, text_stop in *.
  destruct (rest st) as [|c t] eqn:Hr.
  { exists st; apply in_run_Alt; right; apply in_run_Alt; right.
    apply in_run_Eos; auto. }
  apply orb_true_iff in H as [H | H]; [apply orb_true_iff in H as [H | H]|].
  - exists (advance 1 st); apply in_run_Alt; left.
    apply in_run_Cls; split; [exists c, t; auto | reflexivity].
  - apply starts_with_inv in H as [u Hu].
    eexists; apply in_run_Alt; right; apply in_run_Alt; left.
    apply in_run_Seq; eexists; split.
    { apply (in_Lit_intro (chars "http") (chars "://" ++ u)).
      rewrite Hr, Hu; reflexivity. }
    apply in_run_Seq; eexists; split; [apply in_run_Opt; right; reflexivity|].
    apply (in_Lit_intro (chars "://") u); reflexivity.
  - apply starts_with_inv in H as [u Hu].
    eexists; apply in_run_Alt; right; apply in_run_Alt; left.
    apply in_run_Seq; eexists; split.
    { apply (in_Lit_intro (chars "http") (chars "s://" ++ u)).
      rewrite Hr, Hu; reflexivity. }
    apply in_run_Seq; eexists; split.
    { apply in_run_Opt; left.
      apply (in_Lit_intro (chars "s") (chars "://" ++ u)); reflexivity. }
    apply (in_Lit_intro (chars "://") u); reflexivity.
Qed.

Lemma first_stop_spec (s : str) :
  s <> [] ->
  1 <= first_stop s <= length s
  /\ text_stop (skipn (first_stop s) s) = true
  /\ (forall k, 1 <= k < first_stop s -> text_stop (skipn k s) = false).
Proof.
  induction s as [|c t IH]; [congruence|]; intros _.
  cbn [first_stop]; destruct (text_stop t) eqn:E.
  - simpl; repeat split; auto; lia.
  - destruct t as [|d t]; [discriminate|].
    destruct IH as (Hle & Hstop & Hbefore); [discriminate|].
    repeat split; try (simpl in *; lia); [exact Hstop|].
    intros [|[|k]] Hk; [lia | exact E |].
    apply (Hbefore (S k)); lia.
Qed.

(** The fallback rule takes the characters up to the first place after the
    first character where its lookahead holds. *)
Lemma text_match_first (s : str) :
  s <> [] ->
  re_match Translator.text s = Some (RMatch (firstn (first_stop s) s) []).
Proof.
  intros Hne; destruct (first_stop_spec s Hne) as (Hle & Hstop & Hbefore).
  unfold re_match, Translator.text.
  rewrite (run_Seq_single _ _ _ (MState 0 s [])) by reflexivity.
  fold text_lookahead.
  rewrite (run_Seq_Rep_lazy _ _ _ _ (first_stop s)).
  - cbn [run]; fold text_lookahead.
    destruct (run text_lookahead (advance (first_stop s) (MState 0 s [])))
      eqn:E; [exfalso; revert E; apply stop_lookahead; exact Hstop|].
    reflexivity.
  - simpl rest; rewrite span_any; exact Hle.
  - intros k Hk; cbn [run]; fold text_lookahead.
    destruct (run text_lookahead (advance k (MState 0 s []))) as [|x l] eqn:E;
      [reflexivity | exfalso].
    assert (Hx : In x (run text_lookahead (advance k (MState 0 s []))))
      by (rewrite E; left; reflexivity).
    apply lookahead_stop in Hx; simpl in Hx.
    rewrite Hbefore in Hx by exact Hk; discriminate.
Qed.

(** ** One step of the translation, rule by rule *)

Lemma translate_text_step (self : Renderer.t) (s : str) :
  s <> [] ->
  matches Translator.heading s = false ->
  matches Translator.bullet s = false ->
  matches Translator.change_type s = false ->
  matches Translator.url s = false ->
  matches Translator.local_issue_link s = false ->
  Translator.translate self s
  = option_map (app (firstn (first_stop s) s))
      (Translator.translate self (skipn (first_stop s) s)).
Proof.
  intros Hne H1 H2 H3 H4 H5.
  destruct (first_stop_spec s Hne) as (Hle & _ & _).
  rewrite (translate_step self s (firstn (first_stop s) s)
             (RMatch (firstn (first_stop s) s) []) Hne).
  - change (group (RMatch (firstn (first_stop s) s) []) 0)
      with (firstn (first_stop s) s).
    rewrite length_firstn_le by lia; reflexivity.
  - rewrite for_rules_fallback, text_match_first by assumption.
    reflexivity.
Qed.

Lemma none_matches (r : regex) (s : str) :
  re_match r s = None -> matches r s = false.
Proof. unfold matches; intros ->; reflexivity. Qed.

Lemma for_rules_bullet (self : Renderer.t) (ws : str) (c : ascii) (tail : str) :
  forallb is_space ws = true -> is_marker c = true ->
  Translator.for_rules self Translator.rules (ws ++ c :: " " :: tail)
  = Some (ws ++ chars "* ", RMatch (ws ++ [c; " "]) [(1, ws)]).
Proof.
  intros Hws Hc.
  assert (Hh : re_match Translator.heading (ws ++ c :: " " :: tail) = None).
  { destruct ws as [|w ws]; simpl in *; apply heading_no.
    - intros ->; cbv in Hc; discriminate.
    - intros ->; cbv in Hws; discriminate. }
  unfold Translator.rules; rewrite for_rules_cons.
  unfold Translator.pattern at 1; rewrite Hh.
  rewrite for_rules_cons; unfold Translator.pattern at 1.
  rewrite bullet_match by assumption; reflexivity.
Qed.

Lemma translate_bullet_step (self : Renderer.t) (ws : str) (c : ascii)
      (tail : str) :
  forallb is_space ws = true -> is_marker c = true ->
  Translator.translate self (ws ++ c :: " " :: tail)
  = option_map (app (ws ++ chars "* ")) (Translator.translate self tail).
Proof.
  intros Hws Hc.
  assert (Hne : ws ++ c :: " " :: tail <> []) by (destruct ws; discriminate).
  rewrite (translate_step self _ _ _ Hne
             (for_rules_bullet self ws c tail Hws Hc)).
  change (group (RMatch (ws ++ [c; " "]) [(1, ws)]) 0) with (ws ++ [c; " "]).
  change (ws ++ c :: " " :: tail) with (ws ++ [c; " "] ++ tail).
  rewrite app_assoc, skipn_length_app; reflexivity.
Qed.

Lemma translate_heading_step (self : Renderer.t) (line tail : str) :
  forallb dot line = true ->
  match tail with [] => True | c :: _ => dot c = false end ->
  Translator.translate self ("#" :: line ++ tail)
  = option_map (app (Renderer.heading self ("#" :: line)))
      (Translator.translate self tail).
Proof.
  intros Hl Ht.
  pose proof (heading_match line tail Hl Ht) as Hm.
  rewrite (translate_step self _ (Renderer.heading self ("#" :: line))
             (RMatch ("#" :: line) [])); [|discriminate|].
  - change (group (RMatch ("#" :: line) []) 0) with ("#" :: line).
    change ("#" :: line ++ tail) with (("#" :: line) ++ tail).
    rewrite skipn_length_app; reflexivity.
  - unfold Translator.rules; rewrite for_rules_cons.
    unfold Translator.pattern; rewrite Hm; reflexivity.
Qed.

Lemma translate_nil (self : Renderer.t) : Translator.translate self [] = Some [].
Proof. reflexivity. Qed.

(** ** URLs and what follows them *)

Lemma run_Cls_fail (p : ascii -> bool) (st : mstate) :
  match rest st with [] => True | c :: _ => p c = false end ->
  run (Cls p) st = [].
Proof.
  cbn [run]; destruct (rest st) as [|c t]; [reflexivity|].
  intros ->; reflexivity.
Qed.

Lemma run_Cls_ok (p : ascii -> bool) (st : mstate) (c : ascii) (t : str) :
  rest st = c :: t -> p c = true ->
  run (Cls p) st = [MState (pos st + 1) t (caps st)].
Proof.
  intros Hr Hc; cbn [run]; rewrite Hr, Hc.
  unfold advance; rewrite Hr; reflexivity.
Qed.

Lemma trail_no_last (trail after : str) (i : nat) :
  forallb url_trail trail = true ->
  match after with [] => True | c :: _ => Translator.url_body c = false end ->
  i <= length trail ->
  match skipn i (trail ++ after) with
  | [] => True
  | c :: _ => Translator.url_last c = false
  end.
Proof.
  intros Ht Ha; revert i; induction trail as [|d trail IH]; intros i Hi.
  - destruct i; [|simpl in Hi; lia].
    destruct after as [|c after]; simpl; [exact I|].
    destruct (Translator.url_last c) eqn:E; [|reflexivity].
    apply url_last_body in E; congruence.
  - simpl in Ht; apply andb_true_iff in Ht as [Hd Ht].
    destruct i as [|i]; simpl.
    + unfold url_trail in Hd; apply andb_true_iff in Hd as [_ Hd].
      apply negb_true_iff in Hd; exact Hd.
    + apply IH; [exact Ht | simpl in Hi; lia].
Qed.

Lemma url_trail_body (c : ascii) :
  url_trail c = true -> Translator.url_body c = true.
Proof. unfold url_trail; intros H; apply andb_true_iff in H as [H _]; exact H. Qed.

(** The url rule stops at the last character that may end a URL: the
    punctuation after it is left to the rules that follow. *)
Lemma url_match_trail (scheme body : str) (last : ascii) (trail after : str) :
  scheme = chars "http://" \/ scheme = chars "https://" ->
  forallb Translator.url_body body = true -> body <> [] ->
  Translator.url_last last = true ->
  forallb url_trail trail = true ->
  match after with [] => True | c :: _ => Translator.url_body c = false end ->
  re_match Translator.url (scheme ++ body ++ [last] ++ trail ++ after)
  = Some (RMatch (scheme ++ body ++ [last])
                 [(1, scheme ++ body ++ [last])]).
Proof.
  intros Hs Hb Hne Hl Ht Ha.
  set (u := scheme ++ body ++ [last]).
  set (s := scheme ++ body ++ [last] ++ trail ++ after).
  set (st := MState (length scheme) (body ++ [last] ++ trail ++ after) []).
  assert (Hspan : span Translator.url_body (rest st)
                  = length body + 1 + length trail).
  { unfold st; cbn [rest].
    replace (body ++ [last] ++ trail ++ after)
      with ((body ++ [last] ++ trail) ++ after)
      by (rewrite <- !app_assoc; reflexivity).
    rewrite span_all; [rewrite !length_app; simpl; lia | | exact Ha].
    rewrite !forallb_app, Hb; simpl; rewrite url_last_body by exact Hl.
    apply (forallb_impl _ _ _ url_trail_body); exact Ht. }
  assert (Hy : exists l,
             run (Seq (Rep true 1 Translator.url_body)
                      (Cls Translator.url_last)) st
             = MState (length u) (trail ++ after) [] :: l).
  { rewrite (run_Seq_Rep_greedy _ _ _ _ (length body)).
    - rewrite (run_Cls_ok _ _ last (trail ++ after));
        [|unfold advance, st; cbn [rest]; apply skipn_length_app | exact Hl].
      unfold advance, st; cbn [rest pos caps app].
      unfold u; rewrite !length_app; cbn [length].
      rewrite Nat.add_assoc; eauto.
    - rewrite Hspan; destruct body; [congruence | simpl; lia].
    - rewrite Hspan; intros k Hk; apply run_Cls_fail.
      unfold advance, st; cbn [rest].
      replace k with ((k - length body - 1) + length (body ++ [last]))
        by (rewrite length_app; simpl; lia).
      replace (body ++ [last] ++ trail ++ after)
        with ((body ++ [last]) ++ trail ++ after)
        by (rewrite <- !app_assoc; reflexivity).
      rewrite <- skipn_skipn, skipn_length_app.
      apply trail_no_last; auto; lia. }
  destruct Hy as [ly Hy].
  assert (Hx : exists l,
             run (Seq (Lit (chars "http"))
                 (Seq (Opt (Lit (chars "s")))
                 (Seq (Lit (chars "://"))
                 (Seq (Rep true 1 Translator.url_body)
                      (Cls Translator.url_last)))))
                 (MState 0 s [])
             = MState (length u) (trail ++ after) [] :: l).
  { unfold s; destruct Hs as [-> | ->].
    - rewrite (run_Seq_single _ _ _
                 (MState 4 (chars "://" ++ body ++ [last] ++ trail ++ after) []))
        by reflexivity.
      rewrite (run_Seq_single _ _ _
                 (MState 4 (chars "://" ++ body ++ [last] ++ trail ++ after) []))
        by reflexivity.
      rewrite (run_Seq_single _ _ _ st) by reflexivity.
      rewrite Hy; eauto.
    - rewrite (run_Seq_single _ _ _
                 (MState 4 (chars "s://" ++ body ++ [last] ++ trail ++ after) []))
        by reflexivity.
      erewrite (run_Seq_hd _ _ _
                  (MState 5 (chars "://" ++ body ++ [last] ++ trail ++ after) []));
        [eauto | reflexivity|].
      rewrite (run_Seq_single _ _ _ st) by reflexivity.
      exact Hy. }
  destruct Hx as [l Hx].
  unfold re_match, Translator.url.
  rewrite (run_Seq_single _ _ _ (MState 0 s [])) by reflexivity.
  rewrite run_Grp, Hx; simpl.
  rewrite Nat.sub_0_r.
  replace s with (u ++ trail ++ after)
    by (unfold s, u; rewrite <- !app_assoc; reflexivity).
  rewrite firstn_length_app; reflexivity.
Qed.

Lemma translate_url_step (self : Renderer.t) (scheme body : str) (last : ascii)
      (trail after : str) :
  scheme = chars "http://" \/ scheme = chars "https://" ->
  forallb Translator.url_body body = true -> body <> [] ->
  Translator.url_last last = true ->
  forallb url_trail trail = true ->
  match after with [] => True | c :: _ => Translator.url_body c = false end ->
  Translator.translate self ((scheme ++ body ++ [last]) ++ trail ++ after)
  = option_map (app (Renderer.url self (scheme ++ body ++ [last])))
      (Translator.translate self (trail ++ after)).
Proof.
  intros Hs Hb Hne Hl Ht Ha.
  pose proof (url_match_trail scheme body last trail after Hs Hb Hne Hl Ht Ha)
    as Hm.
  set (u := scheme ++ body ++ [last]) in *.
  replace (scheme ++ body ++ [last] ++ trail ++ after)
    with (u ++ trail ++ after) in Hm
    by (unfold u; rewrite <- !app_assoc; reflexivity).
  assert (Hu : exists t, u ++ trail ++ after = "h" :: t)
    by (unfold u; destruct Hs as [-> | ->]; eexists; reflexivity).
  destruct Hu as [t Hu].
  assert (Hfor : Translator.for_rules self Translator.rules
                   (u ++ trail ++ after)
                 = Some (Renderer.url self u, RMatch u [(1, u)])).
  { unfold Translator.rules.
    rewrite for_rules_cons; unfold Translator.pattern at 1.
    rewrite Hu at 1; rewrite heading_no by discriminate.
    rewrite for_rules_cons; unfold Translator.pattern at 1.
    rewrite Hu at 1; rewrite bullet_no by reflexivity.
    rewrite for_rules_cons; unfold Translator.pattern at 1.
    rewrite Hu at 1; rewrite change_type_no by discriminate.
    rewrite for_rules_cons; unfold Translator.pattern at 1.
    rewrite Hm; reflexivity. }
  assert (Hne' : u ++ trail ++ after <> []) by (rewrite Hu; discriminate).
  rewrite (translate_step self _ _ _ Hne' Hfor).
  change (group (RMatch u [(1, u)]) 0) with u.
  rewrite skipn_length_app; reflexivity.
Qed.

(** ** Issue references and tags, in general *)

Lemma split_unique (p : ascii -> bool) (w1 w2 : str) (c1 c2 : ascii)
      (t1 t2 : str) :
  forallb p w1 = true -> forallb p w2 = true ->
  p c1 = false -> p c2 = false ->
  w1 ++ c1 :: t1 = w2 ++ c2 :: t2 ->
  w1 = w2 /\ c1 = c2 /\ t1 = t2.
Proof.
  intros H1 H2 Hc1 Hc2 E.
  assert (L : length w1 = length w2).
  { rewrite <- (span_all p w1 (c1 :: t1)), <- (span_all p w2 (c2 :: t2)), E;
      auto. }
  destruct (app_inv_length _ _ _ _ E L) as [-> [= -> ->]]; auto.
Qed.

Lemma local_issue_link_parse (s : str) (st' : mstate) :
  In st' (run Translator.local_issue_link (MState 0 s [])) ->
  exists n t,
    s = "(" :: "#" :: n ++ ")" :: t
    /\ forallb is_digit n = true /\ n <> []
    /\ pos st' = length n + 3 /\ caps st' = [(1, n)].
Proof.
  unfold Translator.local_issue_link; intros H.
  apply in_run_Seq in H as (m1 & H1 & H).
  apply in_run_Seq in H as (m2 & H2 & H).
  apply in_run_Seq in H as (m3 & H3 & H).
  apply in_Lit_str in H1 as (R1 & P1 & C1).
  apply in_Lit_str in H2 as (R2 & P2 & C2).
  apply in_Grp_Rep_str in H3 as (n & Hn & Hlen & R3 & P3 & C3).
  apply in_Lit_str in H as (R4 & P4 & C4).
  simpl in R1, P1, C1, P2, P4.
  exists n, (rest st'); repeat split; auto.
  - rewrite R1, R2, R3, R4; reflexivity.
  - destruct n; [simpl in Hlen; lia | discriminate].
  - lia.
  - rewrite C4, C3, C2, C1; reflexivity.
Qed.

Lemma local_issue_link_match (n t : str) :
  forallb is_digit n = true -> n <> [] ->
  re_match Translator.local_issue_link ("(" :: "#" :: n ++ ")" :: t)
  = Some (RMatch ("(" :: "#" :: n ++ [")"]) [(1, n)]).
Proof.
  intros Hn Hne.
  set (s := "(" :: "#" :: n ++ ")" :: t).
  assert (Hin : In (MState (length n + 3) t [(1, n)])
                   (run Translator.local_issue_link (MState 0 s []))).
  { unfold Translator.local_issue_link.
    apply in_run_Seq; eexists; split.
    { apply (in_Lit_intro (chars "(") ("#" :: n ++ ")" :: t)); reflexivity. }
    apply in_run_Seq; eexists; split.
    { apply (in_Lit_intro (chars "#") (n ++ ")" :: t)); reflexivity. }
    apply in_run_Seq; exists (MState (length n + 2) (")" :: t) [(1, n)]).
    split.
    - replace (length n + 2) with (2 + length n) by lia.
      apply (in_Grp_Rep_intro 1 true 1 is_digit n (")" :: t)
               (MState 2 (n ++ ")" :: t) []));
        [reflexivity | exact Hn | destruct n; [congruence | simpl; lia]].
    - replace (length n + 3) with (length n + 2 + 1) by lia.
      apply (in_Lit_intro (chars ")") t
               (MState (length n + 2) (")" :: t) [(1, n)])); reflexivity. }
  rewrite (re_match_unique _ _ _ Hin); cbn [pos caps].
  - f_equal; f_equal; unfold s.
    replace (length n + 3) with (S (S (length (n ++ [")"]))))
      by (rewrite length_app; simpl; lia).
    cbn [firstn]; f_equal; f_equal.
    change (n ++ ")" :: t) with (n ++ [")"] ++ t).
    rewrite app_assoc; apply firstn_length_app.
  - intros st' H; apply local_issue_link_parse in H
      as (n' & t' & E & Hn' & _ & -> & ->).
    unfold s in E; injection E as E.
    apply (split_unique is_digit) in E as (<- & _ & _); auto.
Qed.

Lemma change_type_parse (s : str) (st' : mstate) :
  In st' (run Translator.change_type (MState 0 s [])) ->
  exists w t,
    s = "[" :: w ++ "]" :: t
    /\ forallb is_word w = true /\ w <> []
    /\ starts_with (chars "(") t = false
    /\ pos st' = length w + 2 /\ caps st' = [(1, w)].
Proof.
  unfold Translator.change_type; intros H.
  apply in_run_Seq in H as (m1 & H1 & H).
  apply in_run_Seq in H as (m2 & H2 & H).
  apply in_run_Seq in H as (m3 & H3 & H).
  apply in_Lit_str in H1 as (R1 & P1 & C1).
  apply in_Grp_Rep_str in H2 as (w & Hw & Hlen & R2 & P2 & C2).
  apply in_Lit_str in H3 as (R3 & P3 & C3).
  apply in_run_Ahead in H as [Hla ->].
  simpl in R1, P1, C1, P3.
  exists w, (rest m3); repeat split; auto.
  - rewrite R1, R2, R3; reflexivity.
  - destruct w; [simpl in Hlen; lia | discriminate].
  - cbn [run] in Hla.
    destruct (starts_with (chars "(") (rest m3)); [discriminate | reflexivity].
  - lia.
  - rewrite C3, C2, C1; reflexivity.
Qed.

Lemma change_type_match (w t : str) :
  forallb is_word w = true -> w <> [] ->
  starts_with (chars "(") t = false ->
  re_match Translator.change_type ("[" :: w ++ "]" :: t)
  = Some (RMatch ("[" :: w ++ ["]"]) [(1, w)]).
Proof.
  intros Hw Hne Ht.
  set (s := "[" :: w ++ "]" :: t).
  assert (Hin : In (MState (length w + 2) t [(1, w)])
                   (run Translator.change_type (MState 0 s []))).
  { unfold Translator.change_type.
    apply in_run_Seq; eexists; split.
    { apply (in_Lit_intro (chars "[") (w ++ "]" :: t)); reflexivity. }
    apply in_run_Seq; exists (MState (length w + 1) ("]" :: t) [(1, w)]).
    split.
    { replace (length w + 1) with (1 + length w) by lia.
      apply (in_Grp_Rep_intro 1 true 1 is_word w ("]" :: t)
               (MState 1 (w ++ "]" :: t) []));
        [reflexivity | exact Hw | destruct w; [congruence | simpl; lia]]. }
    apply in_run_Seq; exists (MState (length w + 2) t [(1, w)]); split.
    - replace (length w + 2) with (length w + 1 + 1) by lia.
      apply (in_Lit_intro (chars "]") t
               (MState (length w + 1) ("]" :: t) [(1, w)])); reflexivity.
    - apply in_run_Ahead; split; [|reflexivity].
      cbn [run rest]; rewrite Ht; reflexivity. }
  rewrite (re_match_unique _ _ _ Hin); cbn [pos caps].
  - f_equal; f_equal; unfold s.
    replace (length w + 2) with (S (length (w ++ ["]"])))
      by (rewrite length_app; simpl; lia).
    cbn [firstn]; f_equal.
    change (w ++ "]" :: t) with (w ++ ["]"] ++ t).
    rewrite app_assoc; apply firstn_length_app.
  - intros st' H; apply change_type_parse in H
      as (w' & t' & E & Hw' & _ & _ & -> & ->).
    unfold s in E; injection E as E.
    apply (split_unique is_word) in E as (<- & _ & _); auto.
Qed.

(** A bracketed word followed by an opening parenthesis is no tag. *)
Lemma change_type_link (w t : str) :
  forallb is_word w = true ->
  re_match Translator.change_type ("[" :: w ++ "]" :: "(" :: t) = None.
Proof.
  intros Hw; apply no_match; intros H; apply matches_inv in H as [st' H].
  apply change_type_parse in H as (w' & t' & E & Hw' & _ & Hla & _).
  injection E as E.
  apply (split_unique is_word) in E as (_ & _ & <-); auto.
  discriminate.
Qed.

Lemma translate_issue_ref_step (self : Renderer.t) (n t : str) :
  forallb is_digit n = true -> n <> [] ->
  Translator.translate self ("(" :: "#" :: n ++ ")" :: t)
  = option_map (app (Renderer.local_issue_link self n))
      (Translator.translate self t).
Proof.
  intros Hn Hne.
  assert (Hfor : Translator.for_rules self Translator.rules
                   ("(" :: "#" :: n ++ ")" :: t)
                 = Some (Renderer.local_issue_link self n,
                         RMatch ("(" :: "#" :: n ++ [")"]) [(1, n)])).
  { unfold Translator.rules.
    rewrite for_rules_cons; unfold Translator.pattern at 1.
    rewrite heading_no by discriminate.
    rewrite for_rules_cons; unfold Translator.pattern at 1.
    rewrite bullet_no by reflexivity.
    rewrite for_rules_cons; unfold Translator.pattern at 1.
    rewrite change_type_no by discriminate.
    rewrite for_rules_cons; unfold Translator.pattern at 1.
    rewrite url_no by discriminate.
    rewrite for_rules_cons; unfold Translator.pattern at 1.
    rewrite local_issue_link_match by assumption; reflexivity. }
  assert (Hne' : "(" :: "#" :: n ++ ")" :: t <> []) by discriminate.
  rewrite (translate_step self _ _ _ Hne' Hfor).
  change (group (RMatch ("(" :: "#" :: n ++ [")"]) [(1, n)]) 0)
    with (("(" :: "#" :: n) ++ [")"]).
  change ("(" :: "#" :: n ++ ")" :: t) with (("(" :: "#" :: n) ++ [")"] ++ t).
  rewrite app_assoc, skipn_length_app; reflexivity.
Qed.

Lemma translate_tag_step (self : Renderer.t) (w t : str) :
  forallb is_word w = true -> w <> [] ->
  starts_with (chars "(") t = false ->
  Translator.translate self ("[" :: w ++ "]" :: t)
  = option_map (app (Renderer.change_type self w))
      (Translator.translate self t).
Proof.
  intros Hw Hne Ht.
  assert (Hfor : Translator.for_rules self Translator.rules
                   ("[" :: w ++ "]" :: t)
                 = Some (Renderer.change_type self w,
                         RMatch ("[" :: w ++ ["]"]) [(1, w)])).
  { unfold Translator.rules.
    rewrite for_rules_cons; unfold Translator.pattern at 1.
    rewrite heading_no by discriminate.
    rewrite for_rules_cons; unfold Translator.pattern at 1.
    rewrite bullet_no by reflexivity.
    rewrite for_rules_cons; unfold Translator.pattern at 1.
    rewrite change_type_match by assumption; reflexivity. }
  assert (Hne' : "[" :: w ++ "]" :: t <> []) by discriminate.
  rewrite (translate_step self _ _ _ Hne' Hfor).
  change (group (RMatch ("[" :: w ++ ["]"]) [(1, w)]) 0)
    with (("[" :: w) ++ ["]"]).
  change ("[" :: w ++ "]" :: t) with (("[" :: w) ++ ["]"] ++ t).
  rewrite app_assoc, skipn_length_app; reflexivity.
Qed.

Lemma word_not_stop_char (c : ascii) :
  is_word c = true -> one_of ["("; "["; nl] c = false.
Proof.
  destruct c as [[] [] [] [] [] [] [] []]; cbv; congruence.
Qed.

Ltac peel Hu Hw w :=
  destruct w as [|? w]; [discriminate|];
  simpl in Hu; injection Hu as -> Hu;
  simpl in Hw.

Lemma word_no_scheme (w after : str) :
  forallb is_word w = true ->
  starts_with (chars "http://") (w ++ "]" :: after) = false
  /\ starts_with (chars "https://") (w ++ "]" :: after) = false.
Proof.
  intros Hw; split.
  - destruct (starts_with (chars "http://") (w ++ "]" :: after)) eqn:E;
      [exfalso | reflexivity].
    apply starts_with_inv in E as [u Hu]; simpl in Hu.
    do 4 peel Hu Hw w.
    destruct w as [|c w]; [discriminate|].
    simpl in Hu; injection Hu as -> _.
    cbv in Hw; discriminate.
  - destruct (starts_with (chars "https://") (w ++ "]" :: after)) eqn:E;
      [exfalso | reflexivity].
    apply starts_with_inv in E as [u Hu]; simpl in Hu.
    do 5 peel Hu Hw w.
    destruct w as [|c w]; [discriminate|].
    simpl in Hu; injection Hu as -> _.
    cbv in Hw; discriminate.
Qed.

Lemma word_not_stop (w after : str) :
  forallb is_word w = true -> text_stop (w ++ "]" :: after) = false.
Proof.
  intros Hw; destruct (word_no_scheme w after Hw) as [H1 H2].
  unfold text_stop; destruct w as [|c w]; simpl app in *.
  - rewrite H1, H2; reflexivity.
  - rewrite H1, H2; simpl in Hw; apply andb_true_iff in Hw as [Hc _].
    rewrite (word_not_stop_char c Hc); reflexivity.
Qed.

Lemma first_stop_tag (w t : str) (x : ascii) :
  forallb is_word w = true ->
  first_stop (x :: w ++ "]" :: "(" :: t) = length w + 2.
Proof.
  revert x; induction w as [|c w IH]; intros x Hw.
  - reflexivity.
  - cbn [first_stop].
    rewrite (word_not_stop (c :: w) ("(" :: t) Hw).
    change ((c :: w) ++ "]" :: "(" :: t) with (c :: w ++ "]" :: "(" :: t).
    simpl in Hw; apply andb_true_iff in Hw as [_ Hw].
    rewrite IH by exact Hw; simpl; reflexivity.
Qed.

Lemma translate_tag_link_step (self : Renderer.t) (w t : str) :
  forallb is_word w = true ->
  Translator.translate self ("[" :: w ++ "]" :: "(" :: t)
  = option_map (app ("[" :: w ++ ["]"]))
      (Translator.translate self ("(" :: t)).
Proof.
  intros Hw.
  rewrite translate_text_step; try discriminate.
  - rewrite first_stop_tag by exact Hw.
    replace (length w + 2) with (length ("[" :: w ++ ["]"]))
      by (simpl; rewrite length_app; simpl; lia).
    replace ("[" :: w ++ "]" :: "(" :: t)
      with (("[" :: w ++ ["]"]) ++ "(" :: t)
      by (simpl; rewrite <- app_assoc; reflexivity).
    rewrite firstn_length_app, skipn_length_app; reflexivity.
  - apply none_matches, heading_no; discriminate.
  - apply none_matches, bullet_no; reflexivity.
  - apply none_matches, change_type_link; exact Hw.
  - apply none_matches, url_no; discriminate.
  - apply none_matches, local_issue_link_no; discriminate.
Qed.

Lemma translate_issue_url_step (self : Renderer.t) (repo issue trail after : str) :
  forallb Translator.url_body repo = true ->
  forallb is_digit issue = true -> issue <> [] ->
  forallb url_trail trail = true ->
  match after with [] => True | c :: _ => Translator.url_body c = false end ->
  Translator.translate self (issue_url repo issue ++ trail ++ after)
  = option_map
      (app (issue_link
              (if str_eqb repo (Renderer.local_repo self)
               then chars "#" ++ issue else repo ++ chars "#" ++ issue)
              repo issue))
      (Translator.translate self (trail ++ after)).
Proof.
  intros Hrepo Hissue Hne Ht Ha.
  destruct (exists_last Hne) as (issue0 & d & Hd).
  assert (Hdigits := Hissue).
  rewrite Hd, forallb_app in Hissue; simpl in Hissue.
  apply andb_true_iff in Hissue as [Hi0 Hdl]; rewrite andb_true_r in Hdl.
  set (body := chars "github.com/" ++ repo ++ chars "/issues/" ++ issue0).
  assert (E : issue_url repo issue = chars "https://" ++ body ++ [d]).
  { unfold issue_url, body; rewrite Hd; simpl; rewrite <- !app_assoc.
    reflexivity. }
  rewrite E, translate_url_step; auto using digit_url_last.
  - rewrite <- E; f_equal; f_equal.
    unfold Renderer.url, issue_url.
    change (chars "https://github.com/" ++ repo ++ chars "/issues/" ++ issue)
      with (chars "https:" ++ chars "//github" ++ "." :: chars "com/" ++ repo
            ++ chars "/issues/" ++ issue).
    rewrite (issue_url_match "." repo issue eq_refl
               (forallb_impl _ _ _ url_body_dot Hrepo) Hdigits Hne).
    unfold issue_link; cbn [group assoc_nat subgroups Nat.eqb].
    do 2 f_equal.
    simpl; rewrite <- !app_assoc; simpl; rewrite <- ?app_assoc; reflexivity.
  - unfold body; simpl; rewrite forallb_app, Hrepo; simpl.
    apply (forallb_impl is_digit); [|exact Hi0].
    intros x Hx; apply url_last_body, digit_url_last; exact Hx.
  - unfold body; discriminate.
Qed.

(** ** Properties of the rules *)

(** X1.  A parenthesised issue number, whatever its digits and whatever
    follows it, becomes the link to that issue of the local repository, in
    parentheses; the text after it is translated on its own. *)
Theorem issue_ref_rendered (self : Renderer.t) (n t : str) :
  forallb is_digit n = true -> n <> [] ->
  Translator.translate self (chars "(#" ++ n ++ chars ")" ++ t)
  = option_map
      (app (chars "([#" ++ n ++ chars "](//github.com/"
            ++ Renderer.local_repo self ++ chars "/issues/" ++ n
            ++ chars "))"))
      (Translator.translate self t).
Proof.
  intros Hn Hne.
  change (chars "(#" ++ n ++ chars ")" ++ t) with ("(" :: "#" :: n ++ ")" :: t).
  rewrite translate_issue_ref_step by assumption.
  unfold Renderer.local_issue_link.
  f_equal; f_equal; simpl; rewrite <- !app_assoc; reflexivity.
Qed.

Lemma issue_ref_rendered_witness :
  forallb is_digit (chars "7") = true /\ chars "7" <> []
  /\ Translator.translate widgets
       (chars "(#" ++ chars "7" ++ chars ")" ++ chars " done")
     = Some (chars "([#7](//github.com/org/repo/issues/7)) done").
Proof.
  split; [reflexivity | split; [discriminate|]].
  rewrite (issue_ref_rendered widgets (chars "7") (chars " done"));
    [vm_compute; reflexivity | reflexivity | discriminate].
Defined.

(** X2.  A bracketed word that is not followed by an opening parenthesis
    becomes the macro of that word, [feature] for [added]; the text after
    it is translated on its own. *)
Theorem tag_rendered (self : Renderer.t) (w t : str) :
  forallb is_word w = true -> w <> [] ->
  starts_with (chars "(") t = false ->
  Translator.translate self (chars "[" ++ w ++ chars "]" ++ t)
  = option_map
      (app (chars "{{"
            ++ (if str_eqb (chars "added") w then chars "feature" else w)
            ++ chars "}}"))
      (Translator.translate self t).
Proof.
  intros Hw Hne Ht.
  change (chars "[" ++ w ++ chars "]" ++ t) with ("[" :: w ++ "]" :: t).
  rewrite translate_tag_step by assumption; reflexivity.
Qed.

Lemma tag_rendered_witness :
  forallb is_word (chars "changed") = true /\ chars "changed" <> []
  /\ starts_with (chars "(") (chars " the API") = false
  /\ Translator.translate widgets
       (chars "[" ++ chars "changed" ++ chars "]" ++ chars " the API")
     = Some (chars "{{changed}} the API").
Proof.
  split; [reflexivity | split; [discriminate | split; [reflexivity|]]].
  rewrite (tag_rendered widgets (chars "changed") (chars " the API"));
    [vm_compute; reflexivity | reflexivity | discriminate | reflexivity].
Defined.

(** X3.  A bracketed word followed by an opening parenthesis is copied as
    it is, whatever the word, [added] included; the translation goes on at
    the parenthesis. *)
Theorem tag_before_parenthesis_kept (self : Renderer.t) (w t : str) :
  forallb is_word w = true ->
  Translator.translate self (chars "[" ++ w ++ chars "](" ++ t)
  = option_map (app (chars "[" ++ w ++ chars "]"))
      (Translator.translate self (chars "(" ++ t)).
Proof.
  intros Hw.
  change (chars "[" ++ w ++ chars "](" ++ t) with ("[" :: w ++ "]" :: "(" :: t).
  rewrite translate_tag_link_step by assumption; reflexivity.
Qed.

Lemma tag_before_parenthesis_kept_witness :
  forallb is_word (chars "added") = true
  /\ Translator.translate widgets
       (chars "[" ++ chars "added" ++ chars "](" ++ chars "x)")
     = Some (chars "[added](x)").
Proof.
  split; [reflexivity|].
  rewrite (tag_before_parenthesis_kept widgets (chars "added") (chars "x)"));
    [vm_compute; reflexivity | reflexivity].
Defined.

(** X4.  Bullets are normalised: after optional whitespace, each of the
    markers [*], [+] and [-] followed by a space is rendered as [* ] after
    the same whitespace, so the three markers give the same translation;
    the text after the marker is translated on its own. *)
Theorem bullet_normalised (self : Renderer.t) (ws : str) (c c' : ascii)
        (t : str) :
  forallb is_space ws = true -> is_marker c = true -> is_marker c' = true ->
  Translator.translate self (ws ++ c :: " " :: t)
  = option_map (app (ws ++ chars "* ")) (Translator.translate self t)
  /\ Translator.translate self (ws ++ c :: " " :: t)
     = Translator.translate self (ws ++ c' :: " " :: t).
Proof.
  intros Hws Hc Hc'.
  rewrite !translate_bullet_step by assumption; auto.
Qed.

Lemma bullet_normalised_witness :
  forallb is_space (chars "  ") = true
  /\ is_marker "+" = true /\ is_marker "-" = true
  /\ Translator.translate widgets (chars "  " ++ "+" :: " " :: chars "item")
     = Some (chars "  * item")
  /\ Translator.translate widgets (chars "  " ++ "+" :: " " :: chars "item")
     = Translator.translate widgets (chars "  " ++ "-" :: " " :: chars "item").
Proof.
  destruct (bullet_normalised widgets (chars "  ") "+" "-" (chars "item"))
    as [H1 H2]; try reflexivity.
  split; [reflexivity | split; [reflexivity | split; [reflexivity|]]].
  split; [rewrite H1; vm_compute; reflexivity | exact H2].
Defined.

(** X5.  A heading line is handed whole to [Renderer.heading]: what the
    text starts with, from [#] to the end of the line, is replaced by the
    rendered heading and nothing inside it is translated; in particular,
    without a product a heading line is kept as it is, tags, URLs and issue
    numbers included. *)
Theorem heading_line_rendered_whole (self : Renderer.t) (line t : str) :
  forallb dot line = true ->
  match t with [] => True | c :: _ => dot c = false end ->
  Translator.translate self ("#" :: line ++ t)
  = option_map (app (Renderer.heading self ("#" :: line)))
      (Translator.translate self t)
  /\ (Renderer.product self = None -> t = [] ->
      Translator.translate self ("#" :: line) = Some ("#" :: line)).
Proof.
  intros Hl Ht; split; [apply translate_heading_step; assumption|].
  intros Hp ->.
  pose proof (translate_heading_step self line [] Hl I) as H.
  rewrite app_nil_r in H; rewrite H.
  unfold Renderer.heading, Renderer.product_truthy; rewrite Hp.
  simpl; rewrite app_nil_r; reflexivity.
Qed.

Lemma heading_line_rendered_whole_witness :
  forallb dot (chars " 1.2.0 [added] (#12)") = true
  /\ Translator.translate (Renderer.Make (chars "org/repo") None)
       ("#" :: chars " 1.2.0 [added] (#12)")
     = Some ("#" :: chars " 1.2.0 [added] (#12)").
Proof.
  split; [reflexivity|].
  apply (proj2 (heading_line_rendered_whole
                  (Renderer.Make (chars "org/repo") None)
                  (chars " 1.2.0 [added] (#12)") [] eq_refl I));
    reflexivity.
Defined.

Lemma bullet_newline_hash (t : str) :
  re_match Translator.bullet (nl :: "#" :: t) = None.
Proof.
  destruct (re_match Translator.bullet (nl :: "#" :: t)) as [m|] eqn:E;
    [exfalso | reflexivity].
  apply bullet_match_inv in E as (ws & c & t' & E & Hws & Hc & _).
  destruct ws as [|w [|w2 ws]]; simpl in E, Hws.
  - injection E as <- _; cbv in Hc; discriminate.
  - injection E as _ <- _; cbv in Hc; discriminate.
  - injection E as _ <- _.
    apply andb_true_iff in Hws as [_ Hws].
    apply andb_true_iff in Hws as [Hws _]; cbv in Hws; discriminate.
Qed.

(** X6.  A [#] at the start of a later line is no heading for the
    translator: when the text that is left begins with a newline and a
    [#], the heading rule is not applied to that [#], whatever the
    product; both characters are copied unchanged, with the text after them
    up to the first place where the fallback rule stops (the end of the
    text, a [(], a [[], a newline or a URL scheme), and the translation
    goes on from there. *)
Theorem hash_after_newline_not_heading (self : Renderer.t) (t : str) :
  exists copied after,
    t = copied ++ after
    /\ text_stop after = true
    /\ (forall k, k < length copied -> text_stop (skipn k t) = false)
    /\ Translator.translate self (nl :: "#" :: t)
       = option_map (app (nl :: "#" :: copied))
           (Translator.translate self after).
Proof.
  destruct (first_stop_spec ("#" :: t)) as (Hk & Hstop & Hbefore);
    [discriminate|].
  destruct (first_stop ("#" :: t)) as [|k] eqn:Ek; [lia|].
  cbn [skipn] in Hstop.
  exists (firstn k t), (skipn k t); split;
    [symmetry; apply firstn_skipn|].
  split; [exact Hstop|]; split.
  - intros j Hj; rewrite length_firstn in Hj.
    apply (Hbefore (S j)); lia.
  - rewrite translate_text_step; try discriminate.
    + change (first_stop (nl :: "#" :: t)) with (S (first_stop ("#" :: t))).
      rewrite Ek; cbn [firstn skipn]; reflexivity.
    + apply none_matches, heading_no; discriminate.
    + apply none_matches, bullet_newline_hash.
    + apply none_matches, change_type_no; discriminate.
    + apply none_matches, url_no; discriminate.
    + apply none_matches, local_issue_link_no; discriminate.
Qed.

(** X7.  A list item whose text begins with [#] is rendered as a heading:
    after the bullet, what is left begins with [#], and the rest of the
    line is replaced by what [Renderer.heading] returns, the product
    heading when a product is configured. *)
Theorem hash_after_bullet_is_heading (self : Renderer.t) (ws : str)
        (c : ascii) (line t : str) :
  forallb is_space ws = true -> is_marker c = true ->
  forallb dot line = true ->
  match t with [] => True | d :: _ => dot d = false end ->
  Translator.translate self (ws ++ c :: " " :: "#" :: line ++ t)
  = option_map
      (app (ws ++ chars "* " ++ Renderer.heading self ("#" :: line)))
      (Translator.translate self t).
Proof.
  intros Hws Hc Hl Ht.
  rewrite translate_bullet_step, translate_heading_step by assumption.
  destruct (Translator.translate self t); simpl; [|reflexivity].
  rewrite <- !app_assoc; reflexivity.
Qed.

Lemma hash_after_bullet_is_heading_witness :
  forallb is_space [] = true /\ is_marker "-" = true
  /\ forallb dot (chars "12 fixed") = true
  /\ Translator.translate widgets
       ([] ++ "-" :: " " :: "#" :: chars "12 fixed" ++ [])
     = Some (chars "* ### {{widgets}}" ++ [nl]).
Proof.
  split; [reflexivity | split; [reflexivity | split; [reflexivity|]]].
  rewrite (hash_after_bullet_is_heading widgets [] "-" (chars "12 fixed") []);
    [vm_compute; reflexivity | reflexivity | reflexivity | reflexivity
    | exact I].
Defined.

(** X8.  An issue URL in running text: the link ends where the URL ends,
    before the punctuation that follows it (a full stop, a comma, a closing
    parenthesis and the like), and that punctuation and the text after it
    are translated on their own. *)
Theorem issue_url_in_sentence (self : Renderer.t)
        (repo issue trail after : str) :
  forallb Translator.url_body repo = true ->
  forallb is_digit issue = true -> issue <> [] ->
  forallb url_trail trail = true ->
  match after with [] => True | c :: _ => Translator.url_body c = false end ->
  Translator.translate self (issue_url repo issue ++ trail ++ after)
  = option_map
      (app (issue_link
              (if str_eqb repo (Renderer.local_repo self)
               then chars "#" ++ issue else repo ++ chars "#" ++ issue)
              repo issue))
      (Translator.translate self (trail ++ after)).
Proof. apply translate_issue_url_step. Qed.

Lemma issue_url_in_sentence_witness :
  forallb Translator.url_body (chars "org/repo") = true
  /\ forallb is_digit (chars "4") = true /\ chars "4" <> []
  /\ forallb url_trail (chars ".") = true
  /\ Translator.translate widgets
       (issue_url (chars "org/repo") (chars "4") ++ chars "." ++ chars " Done")
     = Some (chars "[#4](//github.com/org/repo/issues/4). Done").
Proof.
  split; [reflexivity | split; [reflexivity | split; [discriminate|]]].
  split; [reflexivity|].
  rewrite (issue_url_in_sentence widgets (chars "org/repo") (chars "4")
             (chars ".") (chars " Done"));
    [vm_compute; reflexivity | reflexivity | reflexivity | discriminate
    | reflexivity | reflexivity].
Defined.

Lemma str_eqb_refl' (a : str) : str_eqb a a = true.
Proof. apply str_eqb_eq; reflexivity. Qed.

Lemma local_issue_link_second (c : ascii) (t : str) :
  c <> "#" -> re_match Translator.local_issue_link ("(" :: c :: t) = None.
Proof.
  intros Hc; apply no_match; intros H; apply matches_inv in H as [st' H].
  apply local_issue_link_parse in H as (n & t' & E & _).
  injection E as E _; congruence.
Qed.

(** X9.  The two ways of citing an issue of the local repository agree: its
    full URL in parentheses and the shorthand with [#] are translated to
    the same link, whatever the issue number. *)
Theorem issue_url_and_shorthand_agree (self : Renderer.t) (n : str) :
  forallb Translator.url_body (Renderer.local_repo self) = true ->
  forallb is_digit n = true -> n <> [] ->
  Translator.translate self
    (chars "(" ++ issue_url (Renderer.local_repo self) n ++ chars ")")
  = Translator.translate self (chars "(#" ++ n ++ chars ")")
  /\ Translator.translate self (chars "(#" ++ n ++ chars ")")
     = Some (chars "([#" ++ n ++ chars "](//github.com/"
             ++ Renderer.local_repo self ++ chars "/issues/" ++ n
             ++ chars "))").
Proof.
  intros Hrepo Hn Hne.
  assert (Hshort : Translator.translate self (chars "(#" ++ n ++ chars ")")
                   = Some (chars "([#" ++ n ++ chars "](//github.com/"
                           ++ Renderer.local_repo self ++ chars "/issues/"
                           ++ n ++ chars "))")).
  { change (chars "(#" ++ n ++ chars ")") with ("(" :: "#" :: n ++ ")" :: []).
    rewrite translate_issue_ref_step by assumption.
    rewrite translate_nil; unfold Renderer.local_issue_link; simpl.
    rewrite app_nil_r, <- !app_assoc; reflexivity. }
  split; [|exact Hshort].
  rewrite Hshort.
  set (u := issue_url (Renderer.local_repo self) n).
  change (chars "(" ++ u ++ chars ")") with ("(" :: u ++ [")"]).
  assert (Hu : exists t, u = "h" :: t) by (eexists; reflexivity).
  destruct Hu as [t Hu].
  rewrite translate_text_step; try discriminate.
  - assert (Hstop : first_stop ("(" :: u ++ [")"]) = 1)
      by (unfold u, issue_url; reflexivity).
    rewrite Hstop; cbn [firstn skipn].
    change (u ++ [")"]) with (u ++ chars ")" ++ []).
    unfold u; rewrite translate_issue_url_step; auto.
    rewrite str_eqb_refl'.
    replace (Translator.translate self (chars ")" ++ []))
      with (Some (chars ")")) by reflexivity.
    unfold issue_link; simpl.
    repeat (rewrite <- app_assoc; simpl); reflexivity.
  - rewrite Hu; apply none_matches, heading_no; discriminate.
  - rewrite Hu; apply none_matches, bullet_no; reflexivity.
  - rewrite Hu; apply none_matches, change_type_no; discriminate.
  - rewrite Hu; apply none_matches, url_no; discriminate.
  - rewrite Hu; apply none_matches, local_issue_link_second; discriminate.
Qed.

Lemma issue_url_and_shorthand_agree_witness :
  forallb Translator.url_body (Renderer.local_repo widgets) = true
  /\ forallb is_digit (chars "12") = true /\ chars "12" <> []
  /\ Translator.translate widgets
       (chars "(" ++ issue_url (Renderer.local_repo widgets) (chars "12")
        ++ chars ")")
     = Translator.translate widgets (chars "(#" ++ chars "12" ++ chars ")").
Proof.
  split; [reflexivity | split; [reflexivity | split; [discriminate|]]].
  apply (issue_url_and_shorthand_agree widgets (chars "12"));
    [reflexivity | reflexivity | discriminate].
Defined.

(** ** The lines of a file *)

Lemma file_lines_concat (s : str) : concat (file_lines s) = s.
Proof.
  induction s as [|c s IH]; [reflexivity|].
  cbn [file_lines]; destruct (is_nl c).
  - simpl; rewrite IH; reflexivity.
  - destruct (file_lines s) as [|line lines]; simpl in *;
      rewrite <- IH; reflexivity.
Qed.

Lemma one_line_cons (c : ascii) (line : str) :
  dot c = true -> one_line line -> one_line (c :: line).
Proof.
  intros Hc (x & e & -> & _ & Hx & He).
  exists (c :: x), e; repeat split; auto; [discriminate|].
  simpl; rewrite Hc; exact Hx.
Qed.

Lemma file_lines_one_line (s : str) : Forall one_line (file_lines s).
Proof.
  induction s as [|c s IH]; [constructor|].
  cbn [file_lines]; destruct (is_nl c) eqn:E.
  - constructor; [|exact IH].
    apply Ascii.eqb_eq in E; subst c.
    exists [], [nl]; repeat split; auto; discriminate.
  - assert (Hc : dot c = true) by (unfold dot; rewrite E; reflexivity).
    destruct (file_lines s) as [|line lines].
    + constructor; [|constructor].
      exists [c], []; repeat split; auto; [discriminate|].
      simpl; rewrite Hc; reflexivity.
    + inversion IH; subst; constructor; [|assumption].
      apply one_line_cons; assumption.
Qed.

(** Every line that is followed by another ends with a newline. *)
Lemma file_lines_inner (s : str) :
  forall pre line rest,
    file_lines s = pre ++ line :: rest ->
    Forall (fun l => exists y, l = y ++ [nl]) pre.
Proof.
  induction s as [|c s IH]; intros pre line rest E.
  - destruct pre; discriminate.
  - cbn [file_lines] in E; destruct (is_nl c) eqn:Ec.
    + destruct pre as [|p pre]; [constructor|].
      injection E as <- E; constructor; [|exact (IH _ _ _ E)].
      apply Ascii.eqb_eq in Ec; subst c; exists []; reflexivity.
    + destruct (file_lines s) as [|l0 lines] eqn:El.
      * destruct pre as [|p [|q pre]]; [constructor | discriminate..].
      * destruct pre as [|p pre]; [constructor|].
        injection E as <- E.
        assert (H : Forall (fun l => exists y, l = y ++ [nl]) (l0 :: pre))
          by (apply (IH (l0 :: pre) line rest); rewrite E; reflexivity).
        inversion H as [|? ? [y ->] Hpre]; subst.
        constructor; [exists (c :: y); reflexivity | exact Hpre].
Qed.

Lemma after_newlines_dot (x r : str) :
  forallb dot x = true -> after_newlines (x ++ r) = after_newlines r.
Proof.
  induction x as [|c x IH]; simpl; [reflexivity|].
  intros H; apply andb_true_iff in H as [Hc Hx].
  unfold dot in Hc; apply negb_true_iff in Hc; rewrite Hc; auto.
Qed.

(** The line starts inside a text made of whole lines are the starts of
    its lines. *)
Lemma after_newlines_concat (lines : list str) :
  Forall one_line lines ->
  forall t, In t (after_newlines (concat lines)) ->
  exists before after,
    lines = before ++ after /\ before <> [] /\ t = concat after.
Proof.
  induction lines as [|l lines IH]; intros Hl t Hin; [destruct Hin|].
  inversion Hl as [|? ? (x & e & -> & _ & Hx & He) Hls]; subst.
  cbn [concat] in Hin; rewrite <- app_assoc, after_newlines_dot in Hin
    by exact Hx.
  assert (Hrec : In t (after_newlines (concat lines)) ->
                 exists before after,
                   (x ++ e) :: lines = before ++ after /\ before <> []
                   /\ t = concat after).
  { intros H; destruct (IH Hls t H) as (b & a & -> & _ & ->).
    exists ((x ++ e) :: b), a; repeat split; [discriminate]. }
  destruct He as [-> | ->]; simpl in Hin; [auto|].
  destruct Hin as [<- | Hin]; [|auto].
  exists [x ++ [nl]], lines; repeat split; discriminate.
Qed.

(** ** The section extractor *)

Section Extractor.

Variable initial_heading : regex.

Lemma for_lines_acc (lines : list str) :
  forall initial result,
    ReadChangelogSection.for_lines initial_heading lines initial result
    = result
      ++ ReadChangelogSection.for_lines initial_heading lines initial [].
Proof.
  induction lines as [|l lines IH]; intros initial result; simpl;
    [rewrite app_nil_r; reflexivity|].
  destruct initial.
  - destruct (matches initial_heading l); [|apply IH].
    rewrite IH, (IH _ [l]), app_assoc; reflexivity.
  - destruct (matches ReadChangelogSection.heading l);
      [rewrite app_nil_r; reflexivity|].
    rewrite IH, (IH _ [l]), app_assoc; reflexivity.
Qed.

(** After the first heading: the lines up to the next heading. *)
Lemma for_lines_body (lines : list str) :
  exists after,
    lines = ReadChangelogSection.for_lines initial_heading lines false []
            ++ after
    /\ Forall (fun l => matches ReadChangelogSection.heading l = false)
              (ReadChangelogSection.for_lines initial_heading lines false [])
    /\ match after with
       | [] => True
       | l :: _ => matches ReadChangelogSection.heading l = true
       end.
Proof.
  induction lines as [|l lines (after & E & Hb & Ha)]; [exists []; simpl; auto|].
  simpl; destruct (matches ReadChangelogSection.heading l) eqn:Hl.
  - exists (l :: lines); simpl; auto.
  - rewrite for_lines_acc; exists after; simpl; repeat split; auto.
    rewrite <- E; reflexivity.
Qed.

(** Before it: the lines that are not the heading looked for. *)
Lemma for_lines_initial (lines : list str) :
  (Forall (fun l => matches initial_heading l = false) lines
   /\ ReadChangelogSection.for_lines initial_heading lines true [] = [])
  \/ exists before l rest,
       lines = before ++ l :: rest
       /\ Forall (fun l => matches initial_heading l = false) before
       /\ matches initial_heading l = true
       /\ ReadChangelogSection.for_lines initial_heading lines true []
          = l :: ReadChangelogSection.for_lines initial_heading rest false [].
Proof.
  induction lines as [|l lines IH]; [left; simpl; auto|].
  simpl; destruct (matches initial_heading l) eqn:Hl.
  - right; exists [], l, lines; repeat split; auto.
    rewrite for_lines_acc; reflexivity.
  - destruct IH as [[Hall E] | (before & l' & rest & -> & Hb & Hl' & E)].
    + left; auto.
    + right; exists (l :: before), l', rest; repeat split; auto.
Qed.

End Extractor.

Lemma pop_newlines_spec (reversed : list str) :
  exists dropped,
    reversed = dropped ++ ReadChangelogSection.pop_newlines reversed
    /\ Forall (fun l => l = [nl]) dropped
    /\ match ReadChangelogSection.pop_newlines reversed with
       | [] => True
       | l :: _ => l <> [nl]
       end.
Proof.
  induction reversed as [|l r (d & E & Hd & Hl)]; [exists []; simpl; auto|].
  simpl; destruct (str_eqb l [nl]) eqn:El.
  - apply str_eqb_eq in El; subst l.
    exists ([nl] :: d); simpl; repeat split; auto; congruence.
  - exists []; simpl; repeat split; auto.
    intros ->; rewrite str_eqb_refl' in El; discriminate.
Qed.

(** Pruning takes lines that are a lone newline off the end, and leaves a
    last line that is none. *)
Lemma prune_spec (result : list str) :
  exists dropped,
    result = ReadChangelogSection.prune result ++ dropped
    /\ Forall (fun l => l = [nl]) dropped
    /\ forall init l,
         ReadChangelogSection.prune result = init ++ [l] -> l <> [nl].
Proof.
  unfold ReadChangelogSection.prune.
  destruct (pop_newlines_spec (rev result)) as (d & E & Hd & Hl).
  exists (rev d); repeat split.
  - rewrite <- rev_app_distr, <- E, rev_involutive; reflexivity.
  - apply Forall_rev; exact Hd.
  - intros init l H.
    apply (f_equal (@rev str)) in H.
    rewrite rev_involutive, rev_app_distr in H; simpl in H.
    rewrite H in Hl; exact Hl.
Qed.

Lemma heading_hash (t : str) :
  matches ReadChangelogSection.heading t = starts_with (chars "#") t.
Proof.
  unfold matches, re_match, ReadChangelogSection.heading; simpl.
  destruct (starts_with ["#"] t); reflexivity.
Qed.

Lemma initial_heading_hash (v : option str) (l : str) :
  matches (ReadChangelogSection.initial_heading v) l = true ->
  exists t, l = "#" :: t.
Proof.
  intros H; apply matches_inv in H as [st' H].
  unfold ReadChangelogSection.initial_heading in H.
  destruct (truthy v).
  - unfold ReadChangelogSection.version_heading in H.
    apply in_run_Seq in H as (m0 & H0 & H); run_inv H0.
    apply in_run_Seq in H as (m1 & H1 & _); run_inv H1; eauto.
  - unfold ReadChangelogSection.numbered_heading in H.
    apply in_run_Seq in H as (m0 & H0 & H); run_inv H0.
    apply in_run_Seq in H as (m1 & H1 & _); run_inv H1; eauto.
Qed.

(** The anatomy of the section: the first line that is the heading looked
    for, the lines after it that are kept, the blank lines pruned, and the
    rest of the file, which is empty or starts with a heading. *)
Lemma section_anatomy (content : str) (v : option str) :
  (Forall (fun l => matches (ReadChangelogSection.initial_heading v) l = false)
          (file_lines content)
   /\ ReadChangelogSection.section_lines content v = [])
  \/ exists before l kept dropped after,
       file_lines content = before ++ (l :: kept) ++ dropped ++ after
       /\ Forall (fun l =>
                    matches (ReadChangelogSection.initial_heading v) l = false)
                 before
       /\ matches (ReadChangelogSection.initial_heading v) l = true
       /\ ReadChangelogSection.section_lines content v = l :: kept
       /\ Forall (fun x => matches ReadChangelogSection.heading x = false) kept
       /\ Forall (fun x => x = [nl]) dropped
       /\ (forall init x, l :: kept = init ++ [x] -> x <> [nl])
       /\ match after with
          | [] => True
          | h :: _ => matches ReadChangelogSection.heading h = true
          end.
Proof.
  unfold ReadChangelogSection.section_lines.
  destruct (for_lines_initial (ReadChangelogSection.initial_heading v)
              (file_lines content))
    as [[Hall E] | (before & l & rest & El & Hb & Hl & E)].
  - left; rewrite E; auto.
  - right; rewrite E.
    destruct (for_lines_body (ReadChangelogSection.initial_heading v) rest)
      as (after & Er & Hbody & Hafter).
    set (body := ReadChangelogSection.for_lines
                   (ReadChangelogSection.initial_heading v) rest false [])
      in *.
    destruct (prune_spec (l :: body)) as (dropped & Ep & Hd & Hlast).
    destruct (ReadChangelogSection.prune (l :: body)) as [|l' kept] eqn:Epr.
    + exfalso; simpl in Ep; rewrite <- Ep in Hd.
      inversion Hd as [|? ? Hnl _].
      apply initial_heading_hash in Hl as [t Ht].
      rewrite Ht in Hnl; unfold nl in Hnl; discriminate.
    + simpl in Ep; injection Ep as <- Ebody.
      exists before, l, kept, dropped, after; repeat split; auto.
      * rewrite El, Er, Ebody, <- !app_assoc; reflexivity.
      * rewrite Ebody in Hbody; apply Forall_app in Hbody as [H _]; exact H.
Qed.

Lemma concat_ends_newline (lines : list str) :
  Forall (fun l => exists y, l = y ++ [nl]) lines ->
  lines = [] \/ exists p, concat lines = p ++ [nl].
Proof.
  induction lines as [|l lines IH]; [auto|]; intros H; right.
  inversion H as [|? ? [y ->] Hls]; subst.
  destruct (IH Hls) as [-> | [p Hp]]; simpl.
  - exists y; rewrite app_nil_r; reflexivity.
  - exists ((y ++ [nl]) ++ p); rewrite Hp, app_assoc; reflexivity.
Qed.

Lemma Forall_one_line_part (content : str) (a b c : list str) :
  file_lines content = a ++ b ++ c -> Forall one_line b.
Proof.
  intros E; pose proof (file_lines_one_line content) as H.
  rewrite E in H; apply Forall_app in H as [_ H].
  apply Forall_app in H as [H _]; exact H.
Qed.

(** X10.  What [read_changelog_section] returns, line by line: nothing when
    no line of the file is the heading looked for; otherwise the first such
    line and the lines after it, up to the next line that starts with [#] or
    to the end of the file, without the lines at their end that are a lone
    newline. *)
Theorem section_is_first_block (content : str) (v : option str) :
  (Forall (fun l => matches (ReadChangelogSection.initial_heading v) l = false)
          (file_lines content)
   /\ read_changelog_section content v = [])
  \/ exists before l kept dropped after,
       file_lines content = before ++ (l :: kept) ++ dropped ++ after
       /\ Forall (fun l =>
                    matches (ReadChangelogSection.initial_heading v) l = false)
                 before
       /\ matches (ReadChangelogSection.initial_heading v) l = true
       /\ read_changelog_section content v = concat (l :: kept)
       /\ Forall (fun x => starts_with (chars "#") x = false) kept
       /\ Forall (fun x => x = [nl]) dropped
       /\ (forall init x, l :: kept = init ++ [x] -> x <> [nl])
       /\ match after with
          | [] => True
          | h :: _ => starts_with (chars "#") h = true
          end.
Proof.
  unfold read_changelog_section.
  destruct (section_anatomy content v)
    as [[Hall E] | (before & l & kept & dropped & after
                    & E & Hb & Hl & Es & Hk & Hd & Hlast & Ha)].
  - left; rewrite E; auto.
  - right; exists before, l, kept, dropped, after; rewrite Es.
    repeat split; auto.
    + apply (Forall_impl _ (fun x H => eq_trans (eq_sym (heading_hash x)) H)).
      exact Hk.
    + destruct after as [|h after]; [exact I|].
      rewrite <- heading_hash; exact Ha.
Qed.

(** X11.  The section is empty exactly when no line of the file is the
    heading looked for: a version that is not in the changelog gives the
    empty string, not an error. *)
Theorem section_empty_iff_not_found (content : str) (v : option str) :
  read_changelog_section content v = []
  <-> Forall (fun l =>
                matches (ReadChangelogSection.initial_heading v) l = false)
             (file_lines content).
Proof.
  unfold read_changelog_section.
  destruct (section_anatomy content v)
    as [[Hall E] | (before & l & kept & dropped & after
                    & E & Hb & Hl & Es & _)].
  - rewrite E; split; auto.
  - rewrite Es; split; intros H; exfalso.
    + apply initial_heading_hash in Hl as [t ->]; discriminate.
    + rewrite E in H; apply Forall_app in H as [_ H].
      inversion H as [|? ? Hno _]; congruence.
Qed.

(** X12.  The section is an excerpt of the file, copied as it is, that
    begins at the start of a line; when it is not empty it begins with
    [#]. *)
Theorem section_is_excerpt (content : str) (v : option str) :
  exists pre post,
    content = pre ++ read_changelog_section content v ++ post
    /\ (pre = [] \/ exists p, pre = p ++ [nl])
    /\ (read_changelog_section content v = []
        \/ exists t, read_changelog_section content v = "#" :: t).
Proof.
  unfold read_changelog_section.
  destruct (section_anatomy content v)
    as [[Hall E] | (before & l & kept & dropped & after
                    & E & Hb & Hl & Es & _)].
  - exists [], content; rewrite E; simpl; auto.
  - exists (concat before), (concat (dropped ++ after)); rewrite Es.
    repeat split.
    + rewrite <- !concat_app.
      rewrite <- (file_lines_concat content) at 1; rewrite E; reflexivity.
    + change ((l :: kept) ++ dropped ++ after)
        with (l :: kept ++ dropped ++ after) in E.
      destruct (concat_ends_newline before (file_lines_inner _ _ _ _ E))
        as [-> | H]; auto.
    + right; apply initial_heading_hash in Hl as [t ->].
      eexists; reflexivity.
Qed.

(** X13.  After its first line the section has no heading: none of its
    later lines starts with [#]. *)
Theorem section_has_one_heading (content : str) (v : option str) :
  forallb (fun t => negb (starts_with (chars "#") t))
          (after_newlines (read_changelog_section content v)) = true.
Proof.
  unfold read_changelog_section.
  destruct (section_anatomy content v)
    as [[Hall E] | (before & l & kept & dropped & after
                    & E & Hb & Hl & Es & Hk & _)];
    [rewrite E; reflexivity | rewrite Es].
  apply forallb_forall; intros t Hin.
  apply after_newlines_concat in Hin
    as (b & a & Eb & Hb' & ->);
    [|exact (Forall_one_line_part content before (l :: kept)
               (dropped ++ after) E)].
  destruct b as [|l' b]; [congruence|]; injection Eb as <- ->.
  apply Forall_app in Hk as [_ Hk].
  destruct a as [|x a]; [reflexivity|].
  inversion Hk as [|? ? Hx _]; subst.
  rewrite heading_hash in Hx; simpl.
  assert (Hone : one_line x).
  { pose proof (Forall_one_line_part content before (l :: b ++ x :: a)
                  (dropped ++ after) E) as H.
    inversion H as [|? ? _ H']; subst.
    apply Forall_app in H' as [_ H']; inversion H'; assumption. }
  destruct Hone as (y & e & -> & Hne & _).
  destruct (y ++ e) as [|c r]; [congruence|].
  unfold starts_with, chars in Hx |- *.
  cbn [list_ascii_of_string strip_prefix app] in Hx |- *.
  destruct (Ascii.eqb "#" c); [discriminate | reflexivity].
Qed.

(** X14.  The section does not end with an empty line: when it is not
    empty, it ends with a character other than a newline, followed by one
    newline at most. *)
Theorem section_has_no_trailing_blank_line (content : str) (v : option str) :
  read_changelog_section content v = []
  \/ exists a c e,
       read_changelog_section content v = a ++ c :: e
       /\ dot c = true /\ (e = [] \/ e = [nl]).
Proof.
  unfold read_changelog_section.
  destruct (section_anatomy content v)
    as [[Hall E] | (before & l & kept & dropped & after
                    & E & Hb & Hl & Es & Hk & Hd & Hlast & _)];
    [left; rewrite E; reflexivity | right; rewrite Es].
  pose proof (Forall_one_line_part content before (l :: kept)
                (dropped ++ after) E) as Hone.
  destruct (@exists_last _ (l :: kept)) as (init & x & Ex); [discriminate|].
  rewrite Ex in Hone |- *.
  apply Forall_app in Hone as [_ Hone]; inversion Hone as [|? ? Hx _]; subst.
  destruct Hx as (y & e & Exy & Hne & Hy & He).
  assert (Hynil : y <> []).
  { intros ->; simpl in Exy; subst x.
    destruct He as [-> | ->]; [congruence|].
    exact (Hlast _ _ Ex eq_refl). }
  destruct (exists_last Hynil) as (y' & c & ->).
  rewrite forallb_app in Hy; apply andb_true_iff in Hy as [_ Hc].
  simpl in Hc; rewrite andb_true_r in Hc.
  exists (concat init ++ y'), c, e; repeat split; auto.
  rewrite concat_app; simpl; rewrite app_nil_r, Exy, <- !app_assoc.
  reflexivity.
Qed.

(** ** Which heading is looked for *)

Lemma in_Rep_intro (g : bool) (lo : nat) (p : ascii -> bool) (w t : str)
      (st : mstate) :
  rest st = w ++ t -> forallb p w = true -> lo <= length w ->
  In (MState (pos st + length w) t (caps st)) (run (Rep g lo p) st).
Proof.
  intros H Hw Hlo; apply in_run_Rep; exists (length w); split.
  - split; [exact Hlo|]; rewrite H; apply span_prefix; exact Hw.
  - unfold advance; rewrite H, skipn_length_app; reflexivity.
Qed.

Lemma first_digit (s : str) :
  (exists x d y, s = x ++ d :: y /\ is_digit d = true) ->
  exists x d y, s = x ++ d :: y /\ is_digit d = true
                /\ forallb (fun c => negb (is_digit c)) x = true.
Proof.
  intros (x & d & y & -> & Hd); induction x as [|c x IH].
  - exists [], d, y; auto.
  - destruct (is_digit c) eqn:Hc.
    + exists [], c, (x ++ d :: y); auto.
    + destruct IH as (x' & d' & y' & E & Hd' & Hx').
      exists (c :: x'), d', y'; simpl; rewrite E, Hc; auto.
Qed.

(** X15.  Which heading starts the section.  With a version, the first line
    that has a [#] at its start and the version somewhere after it, as a
    substring: the version is not compared with whole version numbers.
    Without a version, or with the empty one, the first line that has a [#]
    at its start and a digit somewhere after it. *)
Theorem initial_heading_selects (line : str) :
  (forall v, v <> [] ->
     matches (ReadChangelogSection.initial_heading (Some v)) line = true
     <-> exists x y, line = "#" :: x ++ v ++ y /\ forallb dot x = true)
  /\ (matches (ReadChangelogSection.initial_heading None) line = true
      <-> exists x d y, line = "#" :: x ++ d :: y /\ is_digit d = true)
  /\ ReadChangelogSection.initial_heading (Some [])
     = ReadChangelogSection.initial_heading None.
Proof.
  split; [|split; [|reflexivity]].
  - intros v Hv; destruct v as [|c v]; [congruence|].
    unfold ReadChangelogSection.initial_heading; cbn [truthy].
    unfold ReadChangelogSection.version_heading; split.
    + intros H; apply matches_inv in H as [st' H].
      apply in_run_Seq in H as (m0 & H0 & H).
      apply in_run_Bos in H0 as [_ ->].
      apply in_run_Seq in H as (m1 & H1 & H).
      apply in_run_Seq in H as (m2 & H2 & H).
      apply in_Lit_str in H1 as (R1 & _).
      apply in_Rep_str in H2 as (x & Hx & _ & R2 & _).
      apply in_Lit_str in H as (R3 & _).
      exists x, (rest st'); split; [|exact Hx].
      simpl in R1; rewrite R1, R2, R3; reflexivity.
    + intros (x & y & -> & Hx).
      apply (matches_in _ _ (MState (1 + length x + length (c :: v)) y [])).
      apply in_run_Seq; eexists; split;
        [apply in_run_Bos; split; reflexivity|].
      apply in_run_Seq; eexists; split.
      { apply (in_Lit_intro (chars "#") (x ++ (c :: v) ++ y)); reflexivity. }
      apply in_run_Seq; eexists; split.
      { apply (in_Rep_intro true 0 dot x ((c :: v) ++ y)
                 (MState 1 (x ++ (c :: v) ++ y) []));
          [reflexivity | exact Hx | lia]. }
      apply (in_Lit_intro (c :: v) y
               (MState (1 + length x) ((c :: v) ++ y) [])); reflexivity.
  - unfold ReadChangelogSection.initial_heading; cbn [truthy].
    unfold ReadChangelogSection.numbered_heading; split.
    + intros H; apply matches_inv in H as [st' H].
      apply in_run_Seq in H as (m0 & H0 & H).
      apply in_run_Bos in H0 as [_ ->].
      apply in_run_Seq in H as (m1 & H1 & H).
      apply in_run_Seq in H as (m2 & H2 & H).
      apply in_Lit_str in H1 as (R1 & _).
      apply in_Grp_Rep_str in H2 as (x & _ & _ & R2 & _).
      apply in_Cls_str in H as (d & Hd & R3 & _).
      exists x, d, (rest st'); split; [|exact Hd].
      simpl in R1; rewrite R1, R2, R3; reflexivity.
    + intros (x0 & d0 & y0 & -> & Hd0).
      destruct (first_digit (x0 ++ d0 :: y0)) as (x & d & y & E & Hd & Hx);
        [eauto|]; rewrite E.
      apply (matches_in _ _ (MState (1 + length x + 1) y [(1, x)])).
      apply in_run_Seq; eexists; split;
        [apply in_run_Bos; split; reflexivity|].
      apply in_run_Seq; eexists; split.
      { apply (in_Lit_intro (chars "#") (x ++ d :: y)); reflexivity. }
      apply in_run_Seq; eexists; split.
      { apply (in_Grp_Rep_intro 1 true 0 _ x (d :: y)
                 (MState 1 (x ++ d :: y) []));
          [reflexivity | exact Hx | lia]. }
      apply (in_Cls_intro is_digit d y
               (MState (1 + length x) (d :: y) [(1, x)]));
        [reflexivity | exact Hd].
Qed.

(** ** The driver *)

Lemma find_local_repo_returns (url repo : str) :
  accepted_remote url repo -> find_local_repo url = inl repo.
Proof.
  intros Hacc; pose proof Hacc as (Hr & prefix & tail & Hp & Ht & E).
  unfold find_local_repo.
  destruct (re_match local_repo_pattern url) as [m|] eqn:Em.
  - apply re_match_some in Em as (st' & Hin & ->).
    apply local_repo_parse in Hin as (repo0 & Hacc0 & Hcaps).
    unfold group; simpl subgroups; rewrite Hcaps; simpl assoc_nat.
    f_equal; exact (accepted_remote_unique _ _ _ Hacc0 Hacc).
  - exfalso; subst url.
    destruct (local_repo_in prefix repo tail Hp Ht Hr) as [st' Hin].
    apply matches_in in Hin; unfold matches in Hin.
    rewrite Em in Hin; discriminate.
Qed.

Lemma find_local_repo_raises (url : str) :
  (forall repo, ~ accepted_remote url repo) ->
  find_local_repo url
  = inr (LookupError (chars "Can't figure local repo from remote URL " ++ url)).
Proof.
  intros Hno; unfold find_local_repo.
  destruct (re_match local_repo_pattern url) as [m|] eqn:Em; [|reflexivity].
  apply re_match_some in Em as (st' & Hin & _).
  apply local_repo_parse in Hin as (repo0 & Hacc0 & _).
  destruct (Hno _ Hacc0).
Qed.

(** X16.  When the remote URL of the checkout is not one [find_local_repo]
    accepts, [main] raises its [LookupError] and prints nothing, whatever
    the command line: a repository given with [--repo] does not help, the
    default is computed first. *)
Theorem main_needs_a_known_remote (url : str) (args : Args) (content : str) :
  (forall repo, ~ accepted_remote url repo) ->
  main url args content
  = Some (inr (LookupError
                 (chars "Can't figure local repo from remote URL " ++ url))).
Proof.
  intros Hno; unfold main; rewrite find_local_repo_raises by exact Hno.
  reflexivity.
Qed.

Lemma main_needs_a_known_remote_witness :
  (forall repo, ~ accepted_remote (chars "git@gitlab.com:o/r.git") repo)
  /\ main (chars "git@gitlab.com:o/r.git")
          (MkArgs (Some (chars "o/r")) None true (chars "CHANGELOG.md"))
          (chars "# 1.0")
     = Some (inr (LookupError
                    (chars "Can't figure local repo from remote URL "
                     ++ chars "git@gitlab.com:o/r.git"))).
Proof.
  assert (H : forall repo,
             ~ accepted_remote (chars "git@gitlab.com:o/r.git") repo).
  { intros repo (_ & prefix & tail & [-> | ->] & _ & E); discriminate. }
  split; [exact H|].
  apply main_needs_a_known_remote; exact H.
Defined.

(** X17.  A version that is not in the changelog is no error: with an
    accepted remote and without [--all], when no line of the file is the
    heading looked for, [main] prints an empty line. *)
Theorem main_version_not_found (url repo : str) (args : Args) (content : str) :
  accepted_remote url repo -> args_all args = false ->
  Forall (fun l =>
            matches (ReadChangelogSection.initial_heading (args_only args)) l
            = false)
         (file_lines content) ->
  main url args content = Some (inl [nl]).
Proof.
  intros Hacc Hall Hno; unfold main.
  rewrite (find_local_repo_returns _ _ Hacc), Hall.
  unfold read_changelog_section.
  destruct (section_anatomy content (args_only args))
    as [[_ E] | (before & l & kept & dropped & after & E & _ & Hl & _)].
  - rewrite E; reflexivity.
  - exfalso; rewrite E in Hno; apply Forall_app in Hno as [_ Hno].
    inversion Hno as [|? ? H _]; congruence.
Qed.

Lemma main_version_not_found_witness :
  accepted_remote (chars "git@github.com:o/r.git" ++ [nl]) (chars "o/r")
  /\ main (chars "git@github.com:o/r.git" ++ [nl])
          (MkArgs None (Some (chars "9.9")) false
                  (chars "Firestore/CHANGELOG.md"))
          (chars "# v1.2.0" ++ nl :: chars "- fixed" ++ [nl])
     = Some (inl [nl]).
Proof.
  assert (H : accepted_remote (chars "git@github.com:o/r.git" ++ [nl])
                              (chars "o/r")).
  { split; [reflexivity|].
    exists ssh_prefix, [nl]; repeat split; auto. }
  split; [exact H|].
  apply (main_version_not_found _ (chars "o/r")); [exact H | reflexivity|].
  repeat constructor.
Defined.

Lemma translate_total (self : Renderer.t) (text : str) :
  exists out, Translator.translate self text = Some out.
Proof.
  unfold Translator.translate; apply translate_loop_total; lia.
Qed.

(** The section starts with its heading line, and what follows the heading
    text is the end of the section or a newline. *)
Lemma section_head (content : str) (v : option str) (l : str)
      (kept : list str) :
  ReadChangelogSection.section_lines content v = l :: kept ->
  exists x rest,
    read_changelog_section content v = "#" :: x ++ rest
    /\ forallb dot x = true
    /\ match rest with [] => True | c :: _ => dot c = false end.
Proof.
  intros E; unfold read_changelog_section; rewrite E.
  destruct (section_anatomy content v)
    as [[_ E0] | (before & l0 & kept0 & dropped & after & Ef & _ & Hl & E1 & _)];
    [congruence|].
  rewrite E in E1; injection E1 as <- <-.
  apply initial_heading_hash in Hl as [t ->].
  pose proof (Forall_one_line_part content _ _ _ Ef) as Hone.
  inversion Hone as [|? ? (x' & e & El & _ & Hx & He) _]; subst.
  destruct x' as [|c x].
  { exfalso; simpl in El; destruct He as [-> | ->]; discriminate. }
  injection El as <- ->; simpl in Hx.
  exists x, (e ++ concat kept); split; [|split].
  - simpl; rewrite <- app_assoc; reflexivity.
  - exact Hx.
  - destruct He as [-> | ->]; [|reflexivity].
    destruct kept as [|k kept]; [exact I|exfalso].
    assert (H : Forall (fun l => exists y, l = y ++ [nl])
                       (before ++ ["#" :: x ++ []])).
    { apply (file_lines_inner content _ k (kept ++ dropped ++ after)).
      rewrite Ef, <- !app_assoc; reflexivity. }
    apply Forall_app in H as [_ H]; inversion H as [|? ? [y Hy] _]; subst.
    rewrite app_nil_r in Hy.
    assert (Hd : forallb dot ("#" :: x) = true) by exact Hx.
    rewrite Hy, forallb_app in Hd; simpl in Hd.
    rewrite andb_false_r in Hd; discriminate.
Qed.

Lemma PRODUCTS_truthy (key p : str) :
  dict_find PRODUCTS key = Some p -> p <> [].
Proof.
  unfold PRODUCTS; cbn [dict_find].
  repeat match goal with
         | |- context [if ?b then _ else _] => destruct b
         end;
    intros H; try discriminate; injection H as <-; discriminate.
Qed.

(** X18.  The heading of a release.  With an accepted remote and without
    [--all], when the section looked for exists, [main] prints: in place
    of the section's heading line (from [#] to the end of that line), the
    heading of the product the changelog path has in [PRODUCTS] - nothing
    for the product registered as [NO_HEADING], [### product] and a newline
    for the others, the line itself when the path is not in [PRODUCTS] -
    then the translation of the rest of the section, then a newline.  The
    repository of the links is the one given with [--repo], else the one of
    the remote. *)
Theorem main_section_heading (url repo : str) (args : Args) (content : str)
        (l : str) (kept : list str) :
  accepted_remote url repo -> args_all args = false ->
  ReadChangelogSection.section_lines content (args_only args) = l :: kept ->
  exists x rest body,
    read_changelog_section content (args_only args) = "#" :: x ++ rest
    /\ forallb dot x = true
    /\ match rest with [] => True | c :: _ => c = nl end
    /\ Translator.translate
         (Renderer.Make
            (match args_repo args with Some r => r | None => repo end)
            (dict_find PRODUCTS (args_changelog args)))
         rest = Some body
    /\ main url args content
       = Some (inl (match dict_find PRODUCTS (args_changelog args) with
                    | None => "#" :: x
                    | Some p => if str_eqb p NO_HEADING then []
                                else chars "### " ++ p ++ [nl]
                    end ++ body ++ [nl])).
Proof.
  intros Hacc Hall E.
  destruct (section_head _ _ _ _ E) as (x & rest & Es & Hx & Hr).
  set (self := Renderer.Make
                 (match args_repo args with Some r => r | None => repo end)
                 (dict_find PRODUCTS (args_changelog args))).
  destruct (translate_total self rest) as [body Hb].
  exists x, rest, body; split; [exact Es|]; split; [exact Hx|].
  split; [|split; [exact Hb|]].
  - destruct rest as [|c rest]; [exact I|].
    unfold dot in Hr; apply negb_false_iff, Ascii.eqb_eq in Hr; exact Hr.
  - unfold main; rewrite (find_local_repo_returns _ _ Hacc), Hall.
    fold self; rewrite Es, (translate_heading_step self x rest Hx Hr), Hb.
    simpl option_map; cbv iota; rewrite <- app_assoc; do 3 f_equal.
    unfold Renderer.heading, Renderer.product_truthy, Renderer.product_str.
    subst self; cbn [Renderer.product].
    destruct (dict_find PRODUCTS (args_changelog args)) as [p|] eqn:Ep;
      [|reflexivity].
    apply PRODUCTS_truthy in Ep; destruct p; [congruence | reflexivity].
Qed.

Lemma main_section_heading_witness :
  accepted_remote (chars "git@github.com:o/r.git" ++ [nl]) (chars "o/r")
  /\ exists x rest body,
       read_changelog_section
         (chars "# v1.2.0" ++ nl :: chars "- [fixed] Bug (#12)"
          ++ nl :: nl :: chars "# v1.1.0" ++ [nl])
         None
       = "#" :: x ++ rest
       /\ forallb dot x = true
       /\ match rest with [] => True | c :: _ => c = nl end
       /\ Translator.translate
            (Renderer.Make (chars "o/r")
               (dict_find PRODUCTS (chars "Firestore/CHANGELOG.md")))
            rest = Some body
       /\ main (chars "git@github.com:o/r.git" ++ [nl])
               (MkArgs None None false (chars "Firestore/CHANGELOG.md"))
               (chars "# v1.2.0" ++ nl :: chars "- [fixed] Bug (#12)"
                ++ nl :: nl :: chars "# v1.1.0" ++ [nl])
          = Some (inl (match dict_find PRODUCTS
                               (chars "Firestore/CHANGELOG.md") with
                       | None => "#" :: x
                       | Some p => if str_eqb p NO_HEADING then []
                                   else chars "### " ++ p ++ [nl]
                       end ++ body ++ [nl])).
Proof.
  assert (H : accepted_remote (chars "git@github.com:o/r.git" ++ [nl])
                              (chars "o/r")).
  { split; [reflexivity|].
    exists ssh_prefix, [nl]; repeat split; auto. }
  split; [exact H|].
  apply (main_section_heading
           (chars "git@github.com:o/r.git" ++ [nl]) (chars "o/r")
           (MkArgs None None false (chars "Firestore/CHANGELOG.md"))
           (chars "# v1.2.0" ++ nl :: chars "- [fixed] Bug (#12)"
            ++ nl :: nl :: chars "# v1.1.0" ++ [nl])
           (chars "# v1.2.0" ++ [nl])
           [chars "- [fixed] Bug (#12)" ++ [nl]]);
    [exact H | reflexivity | vm_compute; reflexivity].
Defined.
